(** * 21stDev-Sphere: procedural geometry and per-frame animation

    A shallow embedding of the three hero-scene variants of the repository
    ([src/components/AIHeroScene.tsx], the neural-chip scene, and the two
    AI-core-sphere scenes) together with the properties their specification
    states about them.

    Conventions of the embedding.

    - A JavaScript [number] that holds a real quantity is a value of an
      abstract type [num] carrying the operations of the class [Num]; the
      code is written once against that interface and read at two
      instances: [R] (exact real arithmetic, for statements about every
      input) and [F64] (IEEE-754 binary64 with round-to-nearest-even, what
      a JavaScript engine computes, for runs on the literal seeds).
    - A JavaScript [number] that holds an integer of magnitude below 2^53
      (the PRNG state, loop counters, instance indices, buffer lengths) is
      a [Z]; [%] on such numbers is the truncated remainder [Z.rem].
    - A closure with private mutable state (the function returned by
      [seededRandom]) is its state; calling it is a state transition, and
      code that calls it repeatedly lives in the state monad [Gen].
    - Objects of three.js that the scenes only read (vertex buffers) are
      parameters. *)

From Stdlib Require Import ZArith List Bool Lia.
From Stdlib Require Import QArith.
From Stdlib Require Import Reals Lra.
From Stdlib Require Import Floats.SpecFloat.
Import ListNotations.

Set Implicit Arguments.

(* ------------------------------------------------------------------ *)
(** ** JavaScript numbers *)

Module JS.

(** The operations on numbers that the scenes use. [strict_eqb] is [===],
    [same_value_zero] is the equality of [Set], [to_float32] is what
    storing into a [Float32Array] does to a number. *)
Class Num (num : Type) : Type := {
  of_Z : Z -> num;
  add : num -> num -> num;
  sub : num -> num -> num;
  mul : num -> num -> num;
  div : num -> num -> num;
  neg : num -> num;
  gtb : num -> num -> bool;
  ltb : num -> num -> bool;
  strict_eqb : num -> num -> bool;
  same_value_zero : num -> num -> bool;
  Math_floor : num -> num;
  Math_round : num -> num;
  Math_sqrt : num -> num;
  Math_PI : num;
  to_float32 : num -> num
}.

(** [Math.sin] and [Math.cos], whose results the language leaves to the
    implementation. *)
Class Trig (num : Type) : Type := {
  Math_sin : num -> num;
  Math_cos : num -> num
}.

Declare Scope js_scope.
Delimit Scope js_scope with js.
Infix "+" := add : js_scope.
Infix "-" := sub : js_scope.
Infix "*" := mul : js_scope.
Infix "/" := div : js_scope.
Notation "- x" := (neg x) : js_scope.
Infix ">?" := gtb (at level 70, no associativity) : js_scope.
Infix "<?" := ltb (at level 70, no associativity) : js_scope.
Infix "===" := strict_eqb (at level 70, no associativity) : js_scope.

(** A decimal literal of the source: [lit 2.8] is the number the literal
    [2.8] denotes, the quotient of two integers that [num] represents
    exactly (correctly rounded at [F64], exact at [R]). *)
Definition lit {num} `{Num num} (q : Q) : num :=
  div (of_Z (Qnum q)) (of_Z (Zpos (Qden q))).

(** *** Exact real arithmetic *)

Definition Rgtb (x y : R) : bool := if Rlt_dec y x then true else false.
Definition Rltb (x y : R) : bool := if Rlt_dec x y then true else false.
Definition Reqb (x y : R) : bool := if Req_dec_T x y then true else false.

#[export] Instance Num_R : Num R := {
  of_Z := IZR;
  add := Rplus;
  sub := Rminus;
  mul := Rmult;
  div := Rdiv;
  neg := Ropp;
  gtb := Rgtb;
  ltb := Rltb;
  strict_eqb := Reqb;
  same_value_zero := Reqb;
  Math_floor := fun x => IZR (Int_part x);
  Math_round := fun x => IZR (Int_part (x + / 2));
  Math_sqrt := sqrt;
  Math_PI := PI;
  to_float32 := fun x => x
}.

#[export] Instance Trig_R : Trig R := {
  Math_sin := sin;
  Math_cos := cos
}.

(** *** IEEE-754 binary64 *)

Definition F64 : Type := spec_float.

Definition prec : Z := 53.
Definition emax : Z := 1024.

Definition F64_of_Z (z : Z) : F64 := binary_normalize prec emax z 0 false.

(** The signed integer mantissa of a finite number [m * 2^e]. *)
Definition signed_mantissa (s : bool) (m : positive) : Z :=
  if s then Z.neg m else Z.pos m.

Definition F64_integer (s : bool) (q : Z) : F64 :=
  if (q =? 0)%Z then S754_zero s else binary_normalize prec emax q 0 false.

(** [Math.floor]: the largest integer not above the argument, computed
    exactly on the mantissa; zeros, infinities and NaN are returned as
    they are. *)
Definition F64_floor (x : F64) : F64 :=
  match x with
  | S754_finite s m e =>
      if (0 <=? e)%Z then x
      else F64_integer s (Z.shiftr (signed_mantissa s m) (- e))
  | _ => x
  end.

(** [Math.round]: the nearest integer, ties towards positive infinity,
    again exact: [floor ((2 * m * 2^e + 1) / 2)]. *)
Definition F64_round (x : F64) : F64 :=
  match x with
  | S754_finite s m e =>
      if (0 <=? e)%Z then x
      else F64_integer s
             (Z.shiftr (2 * signed_mantissa s m + Z.shiftl 1 (- e)) (- e + 1))
  | _ => x
  end.

Definition F64_same_value_zero (x y : F64) : bool :=
  match x, y with
  | S754_nan, S754_nan => true
  | _, _ => SFeqb x y
  end.

(** Storing into a [Float32Array]: round to binary32 (24 bits, exponents
    up to 128), then read the result back as a binary64. *)
Definition F64_to_float32 (x : F64) : F64 :=
  match x with
  | S754_finite s m e =>
      match binary_round 24 128 s m e with
      | S754_finite s' m' e' => binary_round prec emax s' m' e'
      | y => y
      end
  | _ => x
  end.

#[export] Instance Num_F64 : Num F64 := {
  of_Z := F64_of_Z;
  add := SFadd prec emax;
  sub := SFsub prec emax;
  mul := SFmul prec emax;
  div := SFdiv prec emax;
  neg := SFopp;
  gtb := fun x y => SFltb y x;
  ltb := SFltb;
  strict_eqb := SFeqb;
  same_value_zero := F64_same_value_zero;
  Math_floor := F64_floor;
  Math_round := F64_round;
  Math_sqrt := SFsqrt prec emax;
  Math_PI := S754_finite false 7074237752028440 (-51);
  to_float32 := F64_to_float32
}.

(** *** Code that draws from a seeded generator

    The state threaded through is the private variable [s] of the closure
    returned by [seededRandom]. *)

Definition Gen (A : Type) : Type := Z -> A * Z.

Definition ret {A} (a : A) : Gen A := fun s => (a, s).

Definition bind {A B} (c : Gen A) (k : A -> Gen B) : Gen B :=
  fun s => let p := c s in k (fst p) (snd p).

Definition run {A} (c : Gen A) (seed : Z) : A := fst (c seed).

Notation "x <- c ;; k" := (bind c (fun x => k))
  (at level 61, c at next level, right associativity) : js_scope.

(** [for (let i = 0; i < n; i++) body(i)], collecting what each iteration
    produces; [i] counts from [start]. *)
Fixpoint for_loop {A} (n : nat) (start : Z) (body : Z -> Gen A)
  : Gen (list A) :=
  match n with
  | O => ret []
  | S n' =>
      bind (body start) (fun a =>
      bind (for_loop n' (start + 1) body) (fun rest =>
      ret (a :: rest)))
  end.

(** The number of times the body of [for (let i = 0; i < count; i++)]
    runs. *)
Definition iterations (count : Z) : nat := Z.to_nat count.

(** A [Set<number>] in insertion order, as [Array.from] lists it. *)
Definition Set_add {num} `{Num num} (set : list num) (v : num) : list num :=
  if existsb (same_value_zero v) set then set else set ++ [v].

(** The ambient [Math.random()]: an unseeded stream of the engine, of which
    each call consumes the next value. *)
Record World (num : Type) : Type := mkWorld {
  stream : nat -> num;
  cursor : nat
}.

Definition Math_random {num} (w : World num) : num * World num :=
  (stream w (cursor w), mkWorld (stream w) (S (cursor w))).

End JS.

(* ------------------------------------------------------------------ *)
(** ** The objects of three.js that the scenes build and mutate *)

Module Three.
Import JS.

Record Vector3 (num : Type) : Type := mkVector3 { x : num; y : num; z : num }.

(** An [Object3D] as far as the scenes touch it: position, Euler rotation,
    scale. *)
Record Object3D (num : Type) : Type := mkObject3D {
  position : Vector3 num;
  rotation : Vector3 num;
  scale : Vector3 num
}.

Record Light (num : Type) : Type := mkLight {
  light_position : Vector3 num;
  intensity : num
}.

(** A material: hue of its colour (saturation and lightness are literals)
    and opacity. *)
Record Material (num : Type) : Type := mkMaterial {
  hue : num;
  opacity : num
}.

(** A [THREE.Line] over the two-point geometry [setFromPoints([start, end])]. *)
Record Line (num : Type) : Type := mkLine {
  line_start : Vector3 num;
  line_end : Vector3 num;
  material : Material num
}.

(** A vertex buffer owned by three.js: its [count] and what
    [new Vector3().fromBufferAttribute(pos, i)] reads at index [i]. *)
Record BufferAttribute (num : Type) : Type := mkBufferAttribute {
  count : Z;
  fromBufferAttribute : num -> Vector3 num
}.

(** An [InstancedMesh]: the declared number of instances, the instance
    matrices written so far, and the [count] that is drawn. A matrix is
    kept as the [Object3D] it was composed from by [updateMatrix]. *)
Record InstancedMesh (num : Type) : Type := mkInstancedMesh {
  capacity : Z;
  instanceMatrix : list (Z * Object3D num);
  instance_count : Z
}.

Section Methods.
Context {num : Type} `{Num num}.
Local Open Scope js_scope.

Definition set_x (v : Vector3 num) (a : num) : Vector3 num :=
  mkVector3 a (y v) (z v).
Definition set_y (v : Vector3 num) (a : num) : Vector3 num :=
  mkVector3 (x v) a (z v).
Definition set_z (v : Vector3 num) (a : num) : Vector3 num :=
  mkVector3 (x v) (y v) a.

Definition multiplyScalar (v : Vector3 num) (k : num) : Vector3 num :=
  mkVector3 (x v * k) (y v * k) (z v * k).

Definition vadd (v w : Vector3 num) : Vector3 num :=
  mkVector3 (x v + x w) (y v + y w) (z v + z w).

Definition length (v : Vector3 num) : num :=
  Math_sqrt (x v * x v + y v * y v + z v * z v).

(** [a || b] on numbers: [a] unless it is zero or NaN. *)
Definition or_else (a b : num) : num :=
  if (a === of_Z 0) || negb (a === a) then b else a.

Definition divideScalar (v : Vector3 num) (k : num) : Vector3 num :=
  multiplyScalar v (of_Z 1 / k).

Definition normalize (v : Vector3 num) : Vector3 num :=
  divideScalar v (or_else (length v) (of_Z 1)).

(** [mesh.setMatrixAt(index, matrix)] records the matrix at that index. *)
Definition setMatrixAt (mesh : InstancedMesh num) (index : Z)
    (matrix : Object3D num) : InstancedMesh num :=
  mkInstancedMesh (capacity mesh)
    (instanceMatrix mesh ++ [(index, matrix)])
    (instance_count mesh).

Definition set_count (mesh : InstancedMesh num) (n : Z)
  : InstancedMesh num :=
  mkInstancedMesh (capacity mesh) (instanceMatrix mesh) n.
End Methods.

End Three.

(* ------------------------------------------------------------------ *)
(** ** The neural-chip scene ([src/components/AIHeroScene.tsx]) *)

Module Chip.
Import JS Three.

Section Scene.
Context {num : Type} `{Num num}.
Local Open Scope js_scope.

(** [let s = seed]: the closure starts from the seed. *)
Definition seededRandom (seed : Z) : Z := seed.

(** One call of the closure:
    [s = (s * 16807) % 2147483647; return (s - 1) / 2147483646]. *)
Definition rand : Gen num := fun s =>
  let s' := Z.rem (s * 16807) 2147483647 in
  ((of_Z s' - of_Z 1) / of_Z 2147483646, s').

(** *** The pins of the chip *)

(** [addPin(x, y, w, h)]: the two triangles of a rectangle, as the 18
    numbers pushed on [vertices]. *)
Definition addPin (x y w h : num) : list num :=
  let z := lit 0.0 in
  [x - w; y - h; z; x + w; y - h; z; x + w; y + h; z;
   x - w; y - h; z; x + w; y + h; z; x - w; y + h; z].

(** One iteration of the loop of [pinsGeo]: a pin on each side. *)
Definition pins_at (count : Z) (size pinW pinL : num) (i : Z) : list num :=
  let offset := (of_Z i / of_Z (count - 1) - lit 0.5) * size * lit 0.99 in
  addPin offset (size / of_Z 2 + pinL / of_Z 2) pinW pinL
  ++ addPin offset (- size / of_Z 2 - pinL / of_Z 2) pinW pinL
  ++ addPin (size / of_Z 2 + pinL / of_Z 2) offset pinL pinW
  ++ addPin (- size / of_Z 2 - pinL / of_Z 2) offset pinL pinW.

(** The [vertices] array of [pinsGeo]. *)
Definition pinsGeo_vertices : list num :=
  let count := 100%Z in
  let size := lit 3.22 in
  let pinW := lit 0.012 in
  let pinL := lit 0.12 in
  flat_map (fun i => pins_at count size pinW pinL (Z.of_nat i))
           (seq 0 (iterations count)).

(** *** MicroGreebles *)

Definition greeble_count : Z := 200.

(** [<instancedMesh args={[undefined, undefined, count]}>]. *)
Definition new_InstancedMesh : InstancedMesh num :=
  mkInstancedMesh greeble_count [] greeble_count.

(** The body of the placement loop up to [dummy.updateMatrix()]: the
    state of [dummy] whose matrix iteration [i] writes. *)
Definition greeble (i : Z) : Gen (Object3D num) :=
  let w := lit 0.04 in
  let h := lit 0.08 in
  let d := lit 0.02 in
  xy <- (if (i <? 100)%Z then
           r1 <- rand ;;
           let x := (r1 - lit 0.5) * lit 2.8 in
           r2 <- rand ;;
           r3 <- rand ;;
           let y := (if r2 >? lit 0.5 then of_Z 1 else of_Z (-1))
                    * (lit 1.0 + r3 * lit 0.4) in
           ret (x, y)
         else
           r1 <- rand ;;
           r2 <- rand ;;
           let x := (if r1 >? lit 0.5 then of_Z 1 else of_Z (-1))
                    * (lit 1.0 + r2 * lit 0.4) in
           r3 <- rand ;;
           let y := (r3 - lit 0.5) * lit 2.8 in
           ret (x, y)) ;;
  r4 <- rand ;;
  ret (mkObject3D
         (mkVector3 (fst xy) (snd xy) (lit 0.08 + d / of_Z 2))
         (mkVector3 (of_Z 0) (of_Z 0)
            (if r4 >? lit 0.5 then of_Z 0 else Math_PI / of_Z 2))
         (mkVector3 w h d)).

(** [for (let i = 0; i < count; i++) { ...; setMatrixAt(idx++, ...) }]
    with [n] iterations left. *)
Fixpoint greeble_loop (n : nat) (i idx : Z) (mesh : InstancedMesh num)
  : Gen (Z * InstancedMesh num) :=
  match n with
  | O => ret (idx, mesh)
  | S n' =>
      dummy <- greeble i ;;
      greeble_loop n' (i + 1) (idx + 1) (setMatrixAt mesh idx dummy)
  end.

(** The layout effect: nothing without a mounted mesh, otherwise the
    200 placements and [mesh.count = idx]. *)
Definition MicroGreebles_useLayoutEffect
    (meshRef : option (InstancedMesh num)) : option (InstancedMesh num) :=
  match meshRef with
  | None => None
  | Some mesh =>
      let (idx, mesh') :=
        run (greeble_loop (iterations greeble_count) 0 0 mesh)
            (seededRandom 1337) in
      Some (set_count mesh' idx)
  end.

(** *** createCircuitGeo *)

(** One iteration: the four points pushed for one trace. *)
Definition circuit_trace (variance : num) (i : Z)
  : Gen (list (Vector3 num)) :=
  r1 <- rand ;;
  let startEdge := Math_floor (r1 * of_Z 4) in
  r2 <- rand ;;
  let offset :=
    Math_round ((r2 - lit 0.5) * lit 2.8 * variance * of_Z 10) / of_Z 10 in
  let start :=
    if startEdge === of_Z 0 then (offset, lit 1.3)
    else if startEdge === of_Z 1 then (lit 1.3, offset)
    else if startEdge === of_Z 2 then (offset, lit (-1.3))
    else (lit (-1.3), offset) in
  let startX := fst start in
  let startY := snd start in
  r3 <- rand ;;
  let endX := Math_round ((r3 - lit 0.5) * lit 0.8 * of_Z 10) / of_Z 10 in
  r4 <- rand ;;
  let endY := Math_round ((r4 - lit 0.5) * lit 0.8 * of_Z 10) / of_Z 10 in
  let p1 := mkVector3 startX startY (of_Z 0) in
  let p2 := mkVector3 startX endY (of_Z 0) in
  let p3 := mkVector3 endX endY (of_Z 0) in
  ret [p1; p2; p2; p3].

(** The points handed to [setFromPoints]. *)
Definition createCircuitGeo (count : Z) (variance : num) (seed : Z)
  : list (Vector3 num) :=
  concat (run (for_loop (iterations count) 0 (circuit_trace variance))
              (seededRandom seed)).

Definition denseCircuitGeo : list (Vector3 num) :=
  createCircuitGeo 80 (lit 0.3) 42.
Definition activeCircuitGeo : list (Vector3 num) :=
  createCircuitGeo 20 (lit 0.6) 99.

(** *** ParticleField *)

(** One iteration: [arr[i*3]], [arr[i*3+1]], [arr[i*3+2]]. *)
Definition particle (i : Z) : Gen (list num) :=
  r1 <- rand ;;
  r2 <- rand ;;
  r3 <- rand ;;
  ret [to_float32 ((r1 - lit 0.5) * of_Z 30);
       to_float32 ((r2 - lit 0.5) * of_Z 20);
       to_float32 ((r3 - lit 0.5) * of_Z 15)].

Definition particle_count : Z := 400.

Definition ParticleField_positions : list num :=
  concat (run (for_loop (iterations particle_count) 0 particle)
              (seededRandom 999)).

(** *** NetworkLines and the frame callbacks *)

Context `{Trig num}.

Definition network_line (i : Z) : Gen (list (Vector3 num)) :=
  r1 <- rand ;;
  let angle := r1 * Math_PI * of_Z 2 in
  let radius := lit 2.0 in
  let x := Math_cos angle * radius in
  let y := Math_sin angle * radius in
  r2 <- rand ;;
  let z := (r2 - lit 0.5) * lit 0.2 in
  r3 <- rand ;;
  let length := lit 4.0 + r3 * lit 6.0 in
  let p1 := mkVector3 x y z in
  let p2 := vadd p1 (multiplyScalar (normalize p1) length) in
  ret [p1; p2].

Definition NetworkLines_linesGeo : list (Vector3 num) :=
  concat (run (for_loop 40 0 network_line) (seededRandom 555)).

(** What the frame callbacks of the scene reach through their refs; a
    ref that is not attached is [None]. *)
Record SceneState : Type := mkSceneState {
  groupRef : option (Object3D num);
  coreLightRef : option (Light num);
  pointsRef : option (Object3D num);
  movLight : option (Light num)
}.

Definition NeuralChip_useFrame (t : num) (st : SceneState) : SceneState :=
  let group :=
    match groupRef st with
    | Some g =>
        let r1 := set_x (rotation g) (Math_sin (t * lit 0.05) * lit 0.08) in
        let r2 := set_y r1 (Math_sin (t * lit 0.03) * lit 0.12) in
        Some (mkObject3D (position g) r2 (scale g))
    | None => None
    end in
  let light :=
    match coreLightRef st with
    | Some l =>
        Some (mkLight (light_position l)
                      (lit 8.0 + Math_sin (t * lit 1.5) * lit 2.0))
    | None => None
    end in
  mkSceneState group light (pointsRef st) (movLight st).

Definition ParticleField_useFrame (t : num) (st : SceneState)
  : SceneState :=
  let points :=
    match pointsRef st with
    | Some p =>
        Some (mkObject3D (position p)
                         (set_y (rotation p) (t * lit 0.02)) (scale p))
    | None => None
    end in
  mkSceneState (groupRef st) (coreLightRef st) points (movLight st).

Definition SceneLights_useFrame (t : num) (st : SceneState) : SceneState :=
  let light :=
    match movLight st with
    | Some l =>
        let p1 := set_x (light_position l)
                        (Math_sin (t * lit 0.2) * of_Z 12) in
        let p2 := set_z p1 (Math_cos (t * lit 0.2) * of_Z 12) in
        Some (mkLight p2 (intensity l))
    | None => None
    end in
  mkSceneState (groupRef st) (coreLightRef st) (pointsRef st) light.

(** One display frame at elapsed time [t]: the callbacks of
    [SceneLights], [NeuralChip] and [ParticleField], in the order the
    scene mounts them. *)
Definition frame (t : num) (st : SceneState) : SceneState :=
  ParticleField_useFrame t (NeuralChip_useFrame t (SceneLights_useFrame t st)).

End Scene.
End Chip.

(* ------------------------------------------------------------------ *)
(** ** The first AI-core-sphere scene *)

Module SphereA.
Import JS Three.

Section Scene.
Context {num : Type} `{Num num}.
Local Open Scope js_scope.

Definition seededRandom (seed : Z) : Z := seed.

Definition rand : Gen num := fun s =>
  let s' := Z.rem (s * 16807) 2147483647 in
  ((of_Z s' - of_Z 1) / of_Z 2147483646, s').

(** *** Edge colors *)

(** One iteration: [colors[i*3]], [colors[i*3+1]], [colors[i*3+2]] of
    the [Float32Array]. *)
Definition edge_color (i : Z) : Gen (list num) :=
  b <- rand ;;
  ret (map to_float32
         (if b >? lit 0.75 then [lit 0.15; lit 1.0; lit 0.85]
          else if b >? lit 0.4 then
            [lit 0.05; lit 0.6 + b * lit 0.3; lit 0.5 + b * lit 0.2]
          else
            [lit 0.02; lit 0.25 + b * lit 0.2; lit 0.22 + b * lit 0.15])).

(** The color attribute, for [count] vertices of the edges geometry. *)
Definition edge_colors (count : Z) : list num :=
  concat (run (for_loop (iterations count) 0 edge_color) (seededRandom 42)).

(** *** Energy panels *)

(** [while (faceIndices.size < wanted) faceIndices.add(...)], with a
    bound [fuel] on the number of draws; [None] when it is used up. *)
Fixpoint select_faces (fuel wanted : nat) (totalFaces : num)
    (faceIndices : list num) : Gen (option (list num)) :=
  if (List.length faceIndices <? wanted)%nat then
    match fuel with
    | O => ret None
    | S fuel' =>
        r <- rand ;;
        select_faces fuel' wanted totalFaces
          (Set_add faceIndices (Math_floor (r * totalFaces)))
    end
  else ret (Some faceIndices).

Record Panel : Type := mkPanel {
  geo : list num;
  center : Vector3 num
}.

(** The three buffer indices a face reads. *)
Definition panel_reads (fi : num) : list num :=
  let base := fi * of_Z 3 in [base; base + of_Z 1; base + of_Z 2].

Definition panel (pos : BufferAttribute num) (fi : num) : Panel :=
  let base := fi * of_Z 3 in
  let vA := fromBufferAttribute pos base in
  let vB := fromBufferAttribute pos (base + of_Z 1) in
  let vC := fromBufferAttribute pos (base + of_Z 2) in
  mkPanel
    (map to_float32
       [x vA; y vA; z vA; x vB; y vB; z vB; x vC; y vC; z vC])
    (divideScalar (vadd (vadd vA vB) vC) (of_Z 3)).

Definition panel_faces (fuel : nat) (pos : BufferAttribute num)
  : option (list num) :=
  let totalFaces := of_Z (count pos) / of_Z 3 in
  run (select_faces fuel 3 totalFaces []) (seededRandom 77).

Definition panelGeos (fuel : nat) (pos : BufferAttribute num)
  : option (list Panel) :=
  option_map (map (panel pos)) (panel_faces fuel pos).

(** *** Energy beams *)

(** One iteration: the buffer index read and the line pushed. *)
Definition beam (pos : BufferAttribute num) (i : Z)
  : Gen (num * Line num) :=
  r1 <- rand ;;
  let idx := Math_floor (r1 * of_Z (count pos)) in
  let v := fromBufferAttribute pos idx in
  let dir := normalize v in
  let start := multiplyScalar v (lit 0.95) in
  r2 <- rand ;;
  let end_ := vadd v (multiplyScalar dir (lit 3.0 + r2 * lit 4.0)) in
  r3 <- rand ;;
  let h := lit 0.47 + r3 * lit 0.06 in
  r4 <- rand ;;
  let o := lit 0.35 + r4 * lit 0.3 in
  ret (idx, mkLine start end_ (mkMaterial h o)).

Definition beam_runs (pos : BufferAttribute num) : list (num * Line num) :=
  run (for_loop 10 0 (beam pos)) (seededRandom 200).

Definition beamObjects (pos : BufferAttribute num) : list (Line num) :=
  map snd (beam_runs pos).

(** *** ParticleField *)

Definition particle (i : Z) : Gen (list num) :=
  r1 <- rand ;;
  r2 <- rand ;;
  r3 <- rand ;;
  ret [to_float32 ((r1 - lit 0.5) * of_Z 25);
       to_float32 ((r2 - lit 0.5) * of_Z 16);
       to_float32 ((r3 - lit 0.5) * of_Z 20)].

Definition particle_count : Z := 500.

Definition ParticleField_positions : list num :=
  concat (run (for_loop (iterations particle_count) 0 particle)
              (seededRandom 999)).

(** *** Frame callbacks *)

Context `{Trig num}.

(** [camera.lookAt] of three.js: the orientation of a camera at [eye]
    with up vector [up] that faces [target]. *)
Variable Matrix4_lookAt :
  Vector3 num -> Vector3 num -> Vector3 num -> Vector3 num.

Record Camera : Type := mkCamera {
  camera_position : Vector3 num;
  camera_up : Vector3 num;
  camera_rotation : Vector3 num
}.

Record SceneState : Type := mkSceneState {
  groupRef : option (Object3D num);
  panelLightRef : option (Light num);
  innerGlowRef : option (Material num);
  beams : list (Line num);
  keyRef : option (Light num);
  rimRef : option (Light num);
  camera : Camera;
  pointsRef : option (Object3D num)
}.

Definition set_opacity (m : Material num) (o : num) : Material num :=
  mkMaterial (hue m) o.

Definition set_intensity (l : Light num) (v : num) : Light num :=
  mkLight (light_position l) v.

(** [beamObjects.forEach((line, i) => ...)] from index [i]. *)
Fixpoint beams_forEach (t : num) (i : Z) (lines : list (Line num))
  : list (Line num) :=
  match lines with
  | [] => []
  | line :: rest =>
      mkLine (line_start line) (line_end line)
        (set_opacity (material line)
           (lit 0.2 + Math_sin (t * lit 1.8 + of_Z i * lit 1.1) * lit 0.2))
      :: beams_forEach t (i + 1) rest
  end.

Definition AICoreSphere_useFrame (t : num) (st : SceneState)
  : SceneState :=
  let group :=
    match groupRef st with
    | Some g =>
        let r1 := set_y (rotation g) (t * lit 0.06) in
        let r2 := set_x r1 (Math_sin (t * lit 0.03) * lit 0.08) in
        let p := set_y (position g) (Math_sin (t * lit 0.35) * lit 0.12) in
        Some (mkObject3D p r2 (scale g))
    | None => None
    end in
  let panelLight :=
    match panelLightRef st with
    | Some l =>
        Some (set_intensity l (lit 4.0 + Math_sin (t * lit 1.2) * lit 1.5))
    | None => None
    end in
  let innerGlow :=
    match innerGlowRef st with
    | Some m =>
        Some (set_opacity m (lit 0.06 + Math_sin (t * lit 0.8) * lit 0.02))
    | None => None
    end in
  mkSceneState group panelLight innerGlow (beams_forEach t 0 (beams st))
    (keyRef st) (rimRef st) (camera st) (pointsRef st).

Definition SceneLights_useFrame (t : num) (st : SceneState) : SceneState :=
  let rim :=
    match rimRef st with
    | Some l =>
        Some (set_intensity l (lit 1.8 + Math_sin (t * lit 0.6) * lit 0.4))
    | None => None
    end in
  let key :=
    match keyRef st with
    | Some l =>
        Some (set_intensity l (lit 3.5 + Math_sin (t * lit 0.4) * lit 0.3))
    | None => None
    end in
  mkSceneState (groupRef st) (panelLightRef st) (innerGlowRef st) (beams st)
    key rim (camera st) (pointsRef st).

Definition CameraDrift_useFrame (t : num) (st : SceneState) : SceneState :=
  let c := camera st in
  let p :=
    mkVector3 (lit 0.3 + Math_sin (t * lit 0.12) * lit 0.25)
              (lit 0.05 + Math_sin (t * lit 0.08) * lit 0.18)
              (lit 6.0 + Math_sin (t * lit 0.1) * lit 0.15) in
  let target := mkVector3 (lit 1.2) (of_Z 0) (of_Z 0) in
  mkSceneState (groupRef st) (panelLightRef st) (innerGlowRef st) (beams st)
    (keyRef st) (rimRef st)
    (mkCamera p (camera_up c) (Matrix4_lookAt p target (camera_up c)))
    (pointsRef st).

Definition ParticleField_useFrame (t : num) (st : SceneState)
  : SceneState :=
  let points :=
    match pointsRef st with
    | Some p =>
        let r1 := set_y (rotation p) (t * lit 0.003) in
        let r2 := set_x r1 (t * lit 0.001) in
        Some (mkObject3D (position p) r2 (scale p))
    | None => None
    end in
  mkSceneState (groupRef st) (panelLightRef st) (innerGlowRef st) (beams st)
    (keyRef st) (rimRef st) (camera st) points.

(** One display frame at elapsed time [t]: the callbacks of
    [CameraDrift], [SceneLights], [AICoreSphere] and [ParticleField], in
    the order the scene mounts them. *)
Definition frame (t : num) (st : SceneState) : SceneState :=
  ParticleField_useFrame t
    (AICoreSphere_useFrame t
       (SceneLights_useFrame t (CameraDrift_useFrame t st))).

End Scene.
End SphereA.

(* ------------------------------------------------------------------ *)
(** ** The second AI-core-sphere scene *)

Module SphereB.
Import JS Three.

Section Scene.
Context {num : Type} `{Num num}.
Local Open Scope js_scope.

Definition seededRandom (seed : Z) : Z := seed.

Definition rand : Gen num := fun s =>
  let s' := Z.rem (s * 16807) 2147483647 in
  ((of_Z s' - of_Z 1) / of_Z 2147483646, s').

(** *** Edge colors *)

Definition edge_color (i : Z) : Gen (list num) :=
  b <- rand ;;
  ret (map to_float32
         (if b >? lit 0.8 then [lit 0.4; lit 1.0; lit 1.0]
          else if b >? lit 0.4 then [lit 0.0; lit 0.8; lit 0.8]
          else [lit 0.0; lit 0.3; lit 0.3])).

Definition edge_colors (count : Z) : list num :=
  concat (run (for_loop (iterations count) 0 edge_color) (seededRandom 42)).

(** *** Energy panels *)

Fixpoint select_faces (fuel wanted : nat) (totalFaces : num)
    (faceIndices : list num) : Gen (option (list num)) :=
  if (List.length faceIndices <? wanted)%nat then
    match fuel with
    | O => ret None
    | S fuel' =>
        r <- rand ;;
        select_faces fuel' wanted totalFaces
          (Set_add faceIndices (Math_floor (r * totalFaces)))
    end
  else ret (Some faceIndices).

Record Panel : Type := mkPanel {
  geo : list num;
  center : Vector3 num
}.

Definition panel_reads (fi : num) : list num :=
  let base := fi * of_Z 3 in [base; base + of_Z 1; base + of_Z 2].

Definition panel (pos : BufferAttribute num) (fi : num) : Panel :=
  let base := fi * of_Z 3 in
  let vA := fromBufferAttribute pos base in
  let vB := fromBufferAttribute pos (base + of_Z 1) in
  let vC := fromBufferAttribute pos (base + of_Z 2) in
  mkPanel
    (map to_float32
       [x vA; y vA; z vA; x vB; y vB; z vB; x vC; y vC; z vC])
    (divideScalar (vadd (vadd vA vB) vC) (of_Z 3)).

Definition panel_faces (fuel : nat) (pos : BufferAttribute num)
  : option (list num) :=
  let totalFaces := of_Z (count pos) / of_Z 3 in
  run (select_faces fuel 4 totalFaces []) (seededRandom 123).

Definition panelGeos (fuel : nat) (pos : BufferAttribute num)
  : option (list Panel) :=
  option_map (map (panel pos)) (panel_faces fuel pos).

(** [emissiveIntensity={8.0 + Math.random() * 4.0}], evaluated for each
    panel on every render. *)
Fixpoint panels_emissive (panels : list Panel) (w : World num)
  : list num * World num :=
  match panels with
  | [] => ([], w)
  | _ :: rest =>
      let (r, w1) := Math_random w in
      let (es, w2) := panels_emissive rest w1 in
      ((lit 8.0 + r * lit 4.0) :: es, w2)
  end.

(** *** Energy beams *)

Definition beam (pos : BufferAttribute num) (i : Z)
  : Gen (num * Line num) :=
  r1 <- rand ;;
  let idx := Math_floor (r1 * of_Z (count pos)) in
  let v := fromBufferAttribute pos idx in
  let dir := normalize v in
  let start := multiplyScalar v (lit 0.95) in
  r2 <- rand ;;
  let end_ := vadd v (multiplyScalar dir (lit 4.0 + r2 * lit 5.0)) in
  r3 <- rand ;;
  let h := lit 0.5 + r3 * lit 0.1 in
  r4 <- rand ;;
  let o := lit 0.1 + r4 * lit 0.4 in
  ret (idx, mkLine start end_ (mkMaterial h o)).

Definition beam_runs (pos : BufferAttribute num) : list (num * Line num) :=
  run (for_loop 15 0 (beam pos)) (seededRandom 200).

Definition beamObjects (pos : BufferAttribute num) : list (Line num) :=
  map snd (beam_runs pos).

(** *** ParticleField *)

Definition particle (i : Z) : Gen (list num) :=
  r1 <- rand ;;
  r2 <- rand ;;
  r3 <- rand ;;
  ret [to_float32 ((r1 - lit 0.5) * of_Z 30);
       to_float32 ((r2 - lit 0.5) * of_Z 20);
       to_float32 ((r3 - lit 0.5) * of_Z 15)].

Definition particle_count : Z := 400.

Definition ParticleField_positions : list num :=
  concat (run (for_loop (iterations particle_count) 0 particle)
              (seededRandom 999)).

(** *** Frame callbacks *)

Context `{Trig num}.

Record SceneState : Type := mkSceneState {
  groupRef : option (Object3D num);
  orbitRingRef : option (Object3D num);
  panelLightRef : option (Light num);
  innerGlowRef : option (Material num);
  beams : list (Line num);
  pointsRef : option (Object3D num)
}.

Definition set_opacity (m : Material num) (o : num) : Material num :=
  mkMaterial (hue m) o.

Definition set_intensity (l : Light num) (v : num) : Light num :=
  mkLight (light_position l) v.

(** [beamObjects.forEach((line, i) => ...)] from index [i]; each beam
    consumes one ambient random number. *)
Fixpoint beams_forEach (t : num) (i : Z) (lines : list (Line num))
    (w : World num) : list (Line num) * World num :=
  match lines with
  | [] => ([], w)
  | line :: rest =>
      let (r, w1) := Math_random w in
      let line' :=
        mkLine (line_start line) (line_end line)
          (set_opacity (material line)
             (lit 0.1 + Math_sin (t * lit 2.0 + of_Z i * lit 10.0) * lit 0.1
              + r * lit 0.05)) in
      let (rest', w2) := beams_forEach t (i + 1) rest w1 in
      (line' :: rest', w2)
  end.

Definition AICoreSphere_useFrame (t : num) (st : SceneState)
    (w : World num) : SceneState * World num :=
  let group :=
    match groupRef st with
    | Some g =>
        let r1 := set_y (rotation g) (t * lit 0.04) in
        let r2 := set_x r1 (Math_sin (t * lit 0.02) * lit 0.05) in
        Some (mkObject3D (position g) r2 (scale g))
    | None => None
    end in
  let orbitRing :=
    match orbitRingRef st with
    | Some g =>
        let r1 := set_z (rotation g) (t * lit 0.1) in
        let r2 := set_x r1 (Math_PI / of_Z 2
                            + Math_sin (t * lit 0.05) * lit 0.1) in
        Some (mkObject3D (position g) r2 (scale g))
    | None => None
    end in
  let (panelLight, w1) :=
    match panelLightRef st with
    | Some l =>
        let (r, w') := Math_random w in
        (Some (set_intensity l
                 (lit 15.0 + Math_sin (t * lit 10.0) * lit 2.0
                  + r * lit 2.0)), w')
    | None => (None, w)
    end in
  let innerGlow :=
    match innerGlowRef st with
    | Some m =>
        Some (set_opacity m (lit 0.05 + Math_sin (t * lit 0.5) * lit 0.03))
    | None => None
    end in
  let (beams', w2) := beams_forEach t 0 (beams st) w1 in
  (mkSceneState group orbitRing panelLight innerGlow beams' (pointsRef st),
   w2).

Definition ParticleField_useFrame (t : num) (st : SceneState)
  : SceneState :=
  let points :=
    match pointsRef st with
    | Some p =>
        let r := set_y (rotation p) (t * lit 0.02) in
        let q := set_y (position p) (Math_sin (t * lit 0.1) * lit 0.5) in
        Some (mkObject3D q r (scale p))
    | None => None
    end in
  mkSceneState (groupRef st) (orbitRingRef st) (panelLightRef st)
    (innerGlowRef st) (beams st) points.

(** One display frame: [AICoreSphere], then [ParticleField]. *)
Definition frame (t : num) (st : SceneState) (w : World num)
  : SceneState * World num :=
  let (st1, w1) := AICoreSphere_useFrame t st w in
  (ParticleField_useFrame t st1, w1).

End Scene.
End SphereB.

(* ------------------------------------------------------------------ *)
(** ** Vocabulary of the statements *)

Module Run.
Import JS Three.

(** The modulus of the generator and the states it moves between. *)
Definition modulus : Z := 2147483647.

Definition in_range (s : Z) : Prop := (0 < s < modulus)%Z.

(** The private state of a closure after [n] calls, and the value its
    next call returns. *)
Definition state_after {num} (rand : Gen num) (seed : Z) (n : nat) : Z :=
  Nat.iter n (fun s => snd (rand s)) seed.

Definition nth_value {num} (rand : Gen num) (seed : Z) (n : nat) : num :=
  fst (rand (state_after rand seed n)).

(** The recurrence all three helpers are said to implement. *)
Definition lehmer_state (seed : Z) (n : nat) : Z :=
  Nat.iter n (fun s => Z.rem (s * 16807) 2147483647) seed.

(** A frame callback run at each time of a list in turn. *)
Definition run_frames {num state} (frame : num -> state -> state)
    (ts : list num) (st : state) : state :=
  fold_left (fun s t => frame t s) ts st.

(** A property of the object behind a ref, when one is attached. *)
Definition when_attached {A} (P : A -> Prop) (ref : option A) : Prop :=
  match ref with
  | Some a => P a
  | None => True
  end.

Definition unit_interval (v : R) : Prop := (0 <= v <= 1)%R.

(** What the [n]-th call of a closure started at [seed] does: the state it
    leaves, the value it returns, the product it forms on the way. *)
Definition call_in_range (rand : Gen R) (seed : Z) (n : nat) : Prop :=
  let s := state_after rand seed n in
  (1 <= snd (rand s) <= 2147483646)%Z
  /\ (0 <= fst (rand s) < 1)%R
  /\ (0 <= s * 16807 < 2 ^ 53)%Z.

(** The [k]-th group of four points of a line-segments geometry: the two
    segments of trace [k]. *)
Definition trace_at {A} (points : list A) (k : nat) : list A :=
  firstn 4 (skipn (4 * k) points).

(** Two segments [p1 p2] and [p2 p3] in the plane [z = 0], the first of
    constant x leaving the border of the chip, the second of constant y. *)
Definition orthogonal_trace {num} `{Num num} (segments : list (Vector3 num))
  : Prop :=
  exists p1 p2 p3,
    segments = [p1; p2; p2; p3]
    /\ x p1 = x p2 /\ y p2 = y p3
    /\ z p1 = of_Z 0 /\ z p2 = of_Z 0 /\ z p3 = of_Z 0
    /\ (y p1 = lit 1.3 \/ x p1 = lit 1.3
        \/ y p1 = lit (-1.3) \/ x p1 = lit (-1.3)).

(** A greeble written at instance index [i] stays out of the open square
    [|x| < 1], [|y| < 1] of the core assembly: the first hundred by their
    y, the others by their x. *)
Definition outside_core (i : Z) (o : Object3D R) : Prop :=
  ((i < 100)%Z -> (1 <= Rabs (y (position o)))%R)
  /\ ((100 <= i)%Z -> (1 <= Rabs (x (position o)))%R)
  /\ ~ ((Rabs (x (position o)) < 1)%R /\ (Rabs (y (position o)) < 1)%R).

(** The same test on the numbers a JavaScript engine computes. *)
Definition F64_outside_core (w : Z * Object3D F64) : bool :=
  let p := position (snd w) in
  if (fst w <? 100)%Z then SFleb (F64_of_Z 1) (SFabs (y p))
  else SFleb (F64_of_Z 1) (SFabs (x p)).

(** Modelled from the spec: the position buffer of three.js's
    [IcosahedronGeometry(2.0, 1)], three vertices for each of the
    icosahedron's 80 faces; [read] is what the buffer holds. *)
Definition icoGeo_position {num} (read : num -> Vector3 num)
  : BufferAttribute num :=
  mkBufferAttribute 240 read.

(** A buffer of that size with every vertex at the origin, and scene
    states with every ref attached, on which statements are tried. *)
Definition flat_icoGeo : BufferAttribute R :=
  icoGeo_position (fun _ => mkVector3 0%R 0%R 0%R).

Definition sample_object : Object3D R :=
  (mkObject3D (mkVector3 0 0 0) (mkVector3 0 0 0) (mkVector3 1 1 1))%R.

Definition sample_light : Light R := (mkLight (mkVector3 0 0 0) 1)%R.

Definition sample_line : Line R :=
  (mkLine (mkVector3 0 0 0) (mkVector3 1 1 1) (mkMaterial 0.5 0.5))%R.

Definition sample_camera : SphereA.Camera (num:=R) :=
  (SphereA.mkCamera (mkVector3 0 0 6) (mkVector3 0 1 0) (mkVector3 0 0 0))%R.

Definition SphereA_sample : SphereA.SceneState (num:=R) :=
  SphereA.mkSceneState (Some sample_object) (Some sample_light)
    (Some (mkMaterial 0.5 0.06)%R) [sample_line; sample_line]
    (Some sample_light) (Some sample_light) sample_camera
    (Some sample_object).

Definition SphereB_sample : SphereB.SceneState (num:=R) :=
  SphereB.mkSceneState (Some sample_object) (Some sample_object)
    (Some sample_light) (Some (mkMaterial 0.5 0.05)%R)
    [sample_line; sample_line] (Some sample_object).

Definition Chip_sample : Chip.SceneState (num:=R) :=
  Chip.mkSceneState (Some sample_object) (Some sample_light)
    (Some sample_object) (Some sample_light).

(** An ambient stream that only ever yields 0. *)
Definition idle_world : World R := mkWorld (fun _ => 0%R) 0.

(** Opacities a frame callback leaves on the inner glow and the beams. *)
Definition opacities_in_unit (glow : option (Material R))
    (lines : list (Line R)) : Prop :=
  when_attached (fun m => unit_interval (opacity m)) glow
  /\ Forall (fun l => unit_interval (opacity (material l))) lines.

(** An index that a buffer of [count pos] vertices holds. *)
Definition in_bounds (pos : BufferAttribute R) (index : R) : Prop :=
  (0 <= index < IZR (count pos))%R.

Definition F64_in_bounds (pos : BufferAttribute F64) (index : F64) : bool :=
  SFleb (F64_of_Z 0) index && SFltb index (F64_of_Z (count pos)).

(** The indices the three constructions read from a position buffer, on
    binary64 numbers: the three vertices of each selected panel face and
    the vertex of each beam, in both sphere scenes. *)
Definition F64_indices_read (pos : BufferAttribute F64) : list F64 :=
  match SphereA.panel_faces 3 pos, SphereB.panel_faces 4 pos with
  | Some fa, Some fb =>
      concat (map SphereA.panel_reads fa)
      ++ concat (map SphereB.panel_reads fb)
      ++ map fst (SphereA.beam_runs pos)
      ++ map fst (SphereB.beam_runs pos)
  | _, _ => [F64_of_Z (-1)]
  end.

Definition F64_indices_in_bounds (pos : BufferAttribute F64) : bool :=
  forallb (F64_in_bounds pos) (F64_indices_read pos).

(** A property of every selected face, when the selection returned. *)
Definition every_face {num} (P : num -> Prop) (faces : option (list num))
  : Prop :=
  match faces with
  | Some l => Forall P l
  | None => True
  end.

(** *** Vocabulary of the further properties *)

(** A number within [bound] of zero, and one whose magnitude lies between
    [lo] and [hi]. *)
Definition within (bound v : R) : Prop := (- bound <= v <= bound)%R.

Definition beside (lo hi v : R) : Prop :=
  (lo <= v <= hi)%R \/ (- hi <= v <= - lo)%R.

(** The vertices a flat array of coordinates holds, three numbers each. *)
Fixpoint vertices_of {A} (array : list A) : list (Vector3 A) :=
  match array with
  | a :: b :: c :: rest => mkVector3 a b c :: vertices_of rest
  | _ => []
  end.

Definition in_box (hx hy hz : R) (p : Vector3 R) : Prop :=
  within hx (x p) /\ within hy (y p) /\ within hz (z p).

(** No two elements of a [Set<number>] are the same value. *)
Definition distinct_values {num} `{Num num} (set : list num) : Prop :=
  ForallOrdPairs (fun a b => same_value_zero b a = false) set.

(** An integer of [0, k). *)
Definition integer_below (k : Z) (v : R) : Prop :=
  exists z, v = IZR z /\ (0 <= z < k)%Z.

(** A trace of the circuit whose end point lies in the square of half-width
    0.4 around the centre and whose start point sits on a border line
    [1.3] from the centre, no further than [1.4 * variance + 0.05] along
    it. *)
Definition trace_within (variance : R) (segments : list (Vector3 R)) : Prop :=
  exists p1 p2 p3,
    segments = [p1; p2; p2; p3]
    /\ within 0.4 (x p3) /\ within 0.4 (y p3) /\ within 0.4 (y p2)
    /\ (((y p1 = 1.3 \/ y p1 = -1.3)%R
         /\ within (1.4 * variance + 0.05) (x p1))
        \/ ((x p1 = 1.3 \/ x p1 = -1.3)%R
            /\ within (1.4 * variance + 0.05) (y p1))).

(** A greeble on the substrate: within 1.4 of the centre on both axes, at
    height 0.09, of the one size, flat or turned by a quarter. *)
Definition on_substrate (o : Object3D R) : Prop :=
  within 1.4 (x (position o)) /\ within 1.4 (y (position o))
  /\ z (position o) = 0.09%R
  /\ scale o = (mkVector3 0.04 0.08 0.02)%R
  /\ x (rotation o) = 0%R /\ y (rotation o) = 0%R
  /\ (z (rotation o) = 0%R \/ z (rotation o) = (PI / 2)%R).

(** A vertex of a pin: in the plane [z = 0], inside the frame between the
    half-widths 1.55 and 1.79, within 1.61 along its side. *)
Definition pin_vertex (p : Vector3 R) : Prop :=
  z p = 0%R
  /\ ((within 1.61 (x p) /\ beside 1.55 1.79 (y p))
      \/ (within 1.61 (y p) /\ beside 1.55 1.79 (x p))).

Definition nonzero (v : Vector3 R) : Prop :=
  (x v <> 0 \/ y v <> 0 \/ z v <> 0)%R.

(** A beam over the vertex [v] it read: from [0.95 v] to [v] plus a step
    of length [len] in [lo, hi) along the direction of [v], a unit vector
    unless [v] is the origin. *)
Definition radial_beam (pos : BufferAttribute R) (lo hi : R)
    (b : R * Line R) : Prop :=
  let v := fromBufferAttribute pos (fst b) in
  exists len,
    (lo <= len < hi)%R
    /\ line_start (snd b) = multiplyScalar v 0.95%R
    /\ line_end (snd b) = vadd v (multiplyScalar (normalize v) len)
    /\ (nonzero v -> Three.length (normalize v) = 1%R).

(** Two updates of a state that can run in either order. *)
Definition commute {state} (f g : state -> state) : Prop :=
  forall st, f (g st) = g (f st).

(** What of a beam no frame callback touches. *)
Definition beam_shape {num} (l : Line num) : Vector3 num * Vector3 num * num :=
  (line_start l, line_end l, hue (material l)).

(** 1 for an attached ref, 0 otherwise. *)
Definition attached {A} (ref : option A) : nat :=
  match ref with
  | Some _ => 1
  | None => 0
  end.

(** The writes of the greeble placement loop, as a function of the
    generator state alone. *)
Fixpoint greeble_writes {num} `{Num num} (n : nat) (i idx s : Z)
  : list (Z * Object3D num) :=
  match n with
  | O => []
  | S n' =>
      (idx, fst (Chip.greeble i s))
      :: greeble_writes n' (i + 1) (idx + 1) (snd (Chip.greeble i s))
  end.

(** A buffer of two triangles, a world whose stream only yields a half,
    and a second-sphere scene without its panel light. *)
Definition two_faces : BufferAttribute R :=
  mkBufferAttribute 6 (fun _ => mkVector3 0%R 0%R 0%R).

Definition F64_flat_icoGeo : BufferAttribute F64 :=
  icoGeo_position
    (fun _ => mkVector3 (F64_of_Z 0) (F64_of_Z 0) (F64_of_Z 0)).

Definition half_world : World R := mkWorld (fun _ => 0.5%R) 0.

Definition SphereB_unlit : SphereB.SceneState (num:=R) :=
  SphereB.mkSceneState (Some sample_object) (Some sample_object) None
    (Some (mkMaterial 0.5 0.05)%R) [sample_line; sample_line]
    (Some sample_object).

(** *** Executions

    What may differ between two executions of a scene: the ambient
    [Math.random] stream of the engine, what happens after the scene has
    mounted and in which order (display frames at any elapsed times,
    renders, layout effects that React runs again), and, in this
    embedding, the bound put on the draws of the panel selection. *)

Inductive Event (num : Type) : Type :=
| Frame (t : num)
| Render
| LayoutEffect.

Arguments Render {num}.
Arguments LayoutEffect {num}.

Record Execution (num : Type) : Type := mkExecution {
  exec_world : World num;
  exec_events : list (Event num);
  exec_fuel : nat
}.

(** The matrix an instanced mesh holds at index [i]: the last one written
    there. *)
Fixpoint matrix_at {num} (writes : list (Z * Object3D num)) (i : Z)
  : option (Object3D num) :=
  match writes with
  | [] => None
  | (j, m) :: rest =>
      match matrix_at rest i with
      | Some m' => Some m'
      | None => if (j =? i)%Z then Some m else None
      end
  end.

(** The transforms of the instances a mesh draws, [0] to [count - 1]. *)
Definition instance_transforms {num} (mesh : option (InstancedMesh num))
  : list (option (Object3D num)) :=
  match mesh with
  | Some m =>
      map (fun i => matrix_at (instanceMatrix m) (Z.of_nat i))
          (seq 0 (Z.to_nat (instance_count m)))
  | None => []
  end.

(** The placement values of a scene, as they can be read off it at the
    end of an execution. *)
Record ChipPlacements (num : Type) : Type := mkChipPlacements {
  chip_greebles : list (option (Object3D num));
  chip_dense_circuit : list (Vector3 num);
  chip_active_circuit : list (Vector3 num);
  chip_network_lines : list (Vector3 num);
  chip_particles : list num
}.

Record SpherePlacements (num : Type) : Type := mkSpherePlacements {
  sphere_edge_colors : list num;
  sphere_beams : list (Vector3 num * Vector3 num * num);
  sphere_particles : list num
}.

(** The chip while it runs: the instanced mesh of the greebles and the
    objects behind the refs. *)
Record ChipRun (num : Type) : Type := mkChipRun {
  chip_mesh : option (InstancedMesh num);
  chip_refs : Chip.SceneState (num:=num)
}.

Section Executions.
Context {num : Type} `{Num num} `{Trig num}.
Variable Matrix4_lookAt :
  Vector3 num -> Vector3 num -> Vector3 num -> Vector3 num.

Definition Chip_step (e : Event num) (s : ChipRun num) : ChipRun num :=
  match e with
  | Frame t => mkChipRun (chip_mesh s) (Chip.frame t (chip_refs s))
  | Render => s
  | LayoutEffect =>
      mkChipRun (Chip.MicroGreebles_useLayoutEffect (chip_mesh s))
                (chip_refs s)
  end.

(** Mounting runs the layout effect on the new mesh; the events follow. *)
Definition Chip_execute (refs : Chip.SceneState) (e : Execution num)
  : ChipRun num :=
  fold_left (fun s ev => Chip_step ev s) (exec_events e)
    (mkChipRun
       (Chip.MicroGreebles_useLayoutEffect (Some Chip.new_InstancedMesh))
       refs).

Definition Chip_observe (s : ChipRun num) : ChipPlacements num :=
  mkChipPlacements (instance_transforms (chip_mesh s))
    Chip.denseCircuitGeo Chip.activeCircuitGeo
    Chip.NetworkLines_linesGeo Chip.ParticleField_positions.

(** The first sphere: mounting puts [beamObjects] in the scene, whose
    materials the frames then mutate. *)
Definition SphereA_mounted (pos : BufferAttribute num)
    (refs : SphereA.SceneState) : SphereA.SceneState :=
  SphereA.mkSceneState (SphereA.groupRef refs) (SphereA.panelLightRef refs)
    (SphereA.innerGlowRef refs) (SphereA.beamObjects pos)
    (SphereA.keyRef refs) (SphereA.rimRef refs) (SphereA.camera refs)
    (SphereA.pointsRef refs).

Definition SphereA_step (e : Event num) (st : SphereA.SceneState)
  : SphereA.SceneState :=
  match e with
  | Frame t => SphereA.frame Matrix4_lookAt t st
  | _ => st
  end.

Definition SphereA_execute (pos : BufferAttribute num)
    (refs : SphereA.SceneState) (e : Execution num) : SphereA.SceneState :=
  fold_left (fun s ev => SphereA_step ev s) (exec_events e)
    (SphereA_mounted pos refs).

Definition SphereA_observe (edges : Z) (st : SphereA.SceneState)
  : SpherePlacements num :=
  mkSpherePlacements (SphereA.edge_colors edges)
    (map beam_shape (SphereA.beams st)) SphereA.ParticleField_positions.

(** The second sphere: its frames and its renders consume the ambient
    stream. *)
Record SphereBRun : Type := mkSphereBRun {
  sphereB_refs : SphereB.SceneState (num:=num);
  sphereB_emissive : list num
}.

Definition SphereB_mounted (pos : BufferAttribute num)
    (refs : SphereB.SceneState) : SphereB.SceneState :=
  SphereB.mkSceneState (SphereB.groupRef refs) (SphereB.orbitRingRef refs)
    (SphereB.panelLightRef refs) (SphereB.innerGlowRef refs)
    (SphereB.beamObjects pos) (SphereB.pointsRef refs).

Definition SphereB_panels (fuel : nat) (pos : BufferAttribute num)
  : list SphereB.Panel :=
  match SphereB.panelGeos fuel pos with
  | Some l => l
  | None => []
  end.

Definition SphereB_step (panels : list SphereB.Panel) (e : Event num)
    (s : SphereBRun * World num) : SphereBRun * World num :=
  match e with
  | Frame t =>
      let (st, w) := SphereB.frame t (sphereB_refs (fst s)) (snd s) in
      (mkSphereBRun st (sphereB_emissive (fst s)), w)
  | Render =>
      let (emissive, w) := SphereB.panels_emissive panels (snd s) in
      (mkSphereBRun (sphereB_refs (fst s)) emissive, w)
  | LayoutEffect => s
  end.

(** Mounting renders once; the events follow. *)
Definition SphereB_execute (pos : BufferAttribute num)
    (refs : SphereB.SceneState) (e : Execution num)
  : SphereBRun * World num :=
  let panels := SphereB_panels (exec_fuel e) pos in
  fold_left (fun s ev => SphereB_step panels ev s) (exec_events e)
    (SphereB_step panels Render
       (mkSphereBRun (SphereB_mounted pos refs) [], exec_world e)).

Definition SphereB_observe (edges : Z) (s : SphereBRun)
  : SpherePlacements num :=
  mkSpherePlacements (SphereB.edge_colors edges)
    (map beam_shape (SphereB.beams (sphereB_refs s)))
    SphereB.ParticleField_positions.

(** Two panel selections that both returned, returned the same faces. *)
Definition faces_agree (a b : option (list num)) : Prop :=
  match a, b with
  | Some fa, Some fb => fa = fb
  | _, _ => True
  end.

(** The writes of one run of the layout effect, and a mesh whose last 200
    writes are those. *)
Definition effect_writes : list (Z * Object3D num) :=
  greeble_writes (iterations Chip.greeble_count) 0 0 1337.

Definition filled (mesh : option (InstancedMesh num)) : Prop :=
  exists m earlier,
    mesh = Some m /\ instance_count m = 200%Z
    /\ instanceMatrix m = earlier ++ effect_writes.
End Executions.

(** Code that, started from a generator state in range, yields a result
    with property [Q] and leaves the state in range. *)
Definition preserves {A} (c : Gen A) (Q : A -> Prop) : Prop :=
  forall s, in_range s -> Q (fst (c s)) /\ in_range (snd (c s)).

End Run.

(* ------------------------------------------------------------------ *)
(** ** The seeded generator *)

Module Prng.
Import JS Three Run.

Lemma modulus_coprime : Z.gcd modulus 16807 = 1%Z.
Proof. vm_compute. reflexivity. Qed.

(** A state in range is followed by a state in range: the product is not
    a multiple of the modulus. *)
Lemma next_in_range (s : Z) :
  in_range s -> in_range (Z.rem (s * 16807) 2147483647).
Proof.
  unfold in_range, modulus. intros Hs.
  rewrite Z.rem_mod_nonneg by lia.
  assert (Hm := Z.mod_pos_bound (s * 16807) 2147483647 ltac:(lia)).
  assert ((s * 16807) mod 2147483647 <> 0)%Z; [|lia].
  intros H0.
  apply Z.mod_divide in H0; [|lia].
  rewrite Z.mul_comm in H0.
  apply Z.gauss in H0; [|exact modulus_coprime].
  destruct H0 as [k Hk]. nia.
Qed.

Lemma product_exact (s : Z) :
  in_range s -> (0 <= s * 16807 < 2 ^ 53)%Z.
Proof.
  unfold in_range, modulus. intros Hs.
  change (2 ^ 53)%Z with 9007199254740992%Z. lia.
Qed.

Section Generic.
Context {num : Type} `{Num num}.

Lemma SphereA_rand_eq : SphereA.rand (num:=num) = Chip.rand.
Proof. reflexivity. Qed.

Lemma SphereB_rand_eq : SphereB.rand (num:=num) = Chip.rand.
Proof. reflexivity. Qed.

Lemma rand_state (s : Z) :
  snd (Chip.rand (num:=num) s) = Z.rem (s * 16807) 2147483647.
Proof. reflexivity. Qed.

Lemma state_after_lehmer (seed : Z) (n : nat) :
  state_after (Chip.rand (num:=num)) seed n = lehmer_state seed n.
Proof.
  unfold state_after, lehmer_state.
  induction n as [|n IH]; [reflexivity|].
  rewrite !Nat.iter_succ, IH. reflexivity.
Qed.

Lemma state_after_in_range (seed : Z) (n : nat) :
  in_range seed -> in_range (state_after (Chip.rand (num:=num)) seed n).
Proof.
  intros Hs. unfold state_after.
  induction n as [|n IH]; [exact Hs|].
  rewrite Nat.iter_succ, rand_state.
  apply next_in_range. exact IH.
Qed.
End Generic.

(** At the exact reals, a call from a state in range returns a value of
    the half-open unit interval. *)
Lemma rand_R_value (s : Z) :
  in_range s ->
  (0 <= fst (Chip.rand (num:=R) s) < 1)%R.
Proof.
  intros Hs. apply next_in_range in Hs.
  unfold Chip.rand, in_range, modulus in *. simpl.
  set (s' := Z.rem (s * 16807) 2147483647) in *.
  assert (H1 : (1 <= IZR s')%R) by (apply IZR_le; lia).
  assert (H2 : (IZR s' <= 2147483646)%R) by (apply IZR_le; lia).
  split.
  - apply Rmult_le_pos; [lra|].
    apply Rlt_le, Rinv_0_lt_compat. lra.
  - apply Rmult_lt_reg_r with 2147483646%R; [lra|].
    unfold Rdiv. rewrite Rmult_assoc, Rinv_l by lra. lra.
Qed.

(** C8. For every integer seed strictly between 0 and 2147483647, every
    call of the closure returned by [seededRandom] (in each of the three
    scenes) leaves a state in [1, 2147483646], returns a value in [0, 1),
    and forms a product [s * 16807] below 2^53. *)
Theorem seededRandom_range (s0 : Z) (n : nat) :
  (0 < s0 < 2147483647)%Z ->
  call_in_range Chip.rand (Chip.seededRandom s0) n
  /\ call_in_range SphereA.rand (SphereA.seededRandom s0) n
  /\ call_in_range SphereB.rand (SphereB.seededRandom s0) n.
Proof.
  intros Hs.
  assert (Hc : call_in_range Chip.rand s0 n).
  { unfold call_in_range.
    pose proof (state_after_in_range (num:=R) n Hs) as Hn.
    set (s := state_after Chip.rand s0 n) in *.
    split; [|split].
    - rewrite rand_state. apply next_in_range in Hn.
      unfold in_range, modulus in Hn. lia.
    - apply rand_R_value. exact Hn.
    - apply product_exact. exact Hn. }
  repeat split; exact Hc || apply Hc.
Qed.

Lemma seededRandom_range_witness :
  (0 < 42 < 2147483647)%Z
  /\ call_in_range Chip.rand (Chip.seededRandom 42) 5
  /\ call_in_range SphereA.rand (SphereA.seededRandom 42) 5
  /\ call_in_range SphereB.rand (SphereB.seededRandom 42) 5.
Proof.
  split; [lia | apply (seededRandom_range (s0 := 42) 5); lia].
Defined.

(** C5. The three [seededRandom] helpers agree: for every seed and every
    [n], the [n]-th value returned is the same in the three scenes; each
    follows the recurrence [s := (s * 16807) % 2147483647] and returns
    [(s - 1) / 2147483646]. *)
Theorem seededRandom_helpers_agree
    (num : Type) (N : Num num) (seed : Z) (n : nat) :
  nth_value Chip.rand (Chip.seededRandom seed) n
  = nth_value SphereA.rand (SphereA.seededRandom seed) n
  /\ nth_value SphereA.rand (SphereA.seededRandom seed) n
    = nth_value SphereB.rand (SphereB.seededRandom seed) n
  /\ state_after (Chip.rand (num:=num)) (Chip.seededRandom seed) n
    = lehmer_state seed n
  /\ nth_value Chip.rand (Chip.seededRandom seed) n
    = div (sub (of_Z (lehmer_state seed (S n))) (of_Z 1))
          (of_Z 2147483646).
Proof.
  split; [|split; [|split]].
  - f_equal.
  - f_equal.
  - apply state_after_lehmer.
  - unfold nth_value, Chip.seededRandom.
    rewrite state_after_lehmer.
    unfold lehmer_state. rewrite Nat.iter_succ. reflexivity.
Qed.

(** *** Reasoning about code in [Gen] *)

Lemma preserves_ret {A} (a : A) (Q : A -> Prop) :
  Q a -> preserves (ret a) Q.
Proof. intros Ha s Hs. split; assumption. Qed.

Lemma preserves_bind {A B} (c : Gen A) (k : A -> Gen B)
    (P : A -> Prop) (Q : B -> Prop) :
  preserves c P ->
  (forall a, P a -> preserves (k a) Q) ->
  preserves (bind c k) Q.
Proof.
  intros Hc Hk s Hs. unfold bind. cbv zeta.
  destruct (Hc s Hs) as [Ha Hs'].
  exact (Hk _ Ha _ Hs').
Qed.

Lemma preserves_weaken {A} (c : Gen A) (P Q : A -> Prop) :
  preserves c P -> (forall a, P a -> Q a) -> preserves c Q.
Proof.
  intros Hc HPQ s Hs. destruct (Hc s Hs) as [Ha Hs'].
  split; [apply HPQ|]; assumption.
Qed.

Lemma preserves_rand :
  preserves (Chip.rand (num:=R)) (fun v => (0 <= v < 1)%R).
Proof.
  intros s Hs. split.
  - apply rand_R_value. exact Hs.
  - rewrite rand_state. apply next_in_range. exact Hs.
Qed.

(** A loop whose body keeps [P i] at iteration [i] yields one result per
    iteration, the [k]-th with the property of iteration [start + k]. *)
Lemma preserves_for_loop {A} (body : Z -> Gen A) (P : Z -> A -> Prop) :
  (forall i, preserves (body i) (P i)) ->
  forall n start,
    preserves (for_loop n start body)
      (fun l => List.length l = n
                /\ forall k a, nth_error l k = Some a ->
                               P (start + Z.of_nat k)%Z a).
Proof.
  intros Hbody. induction n as [|n IH]; intros start.
  - apply preserves_ret. split; [reflexivity|].
    intros [|k] a Hk; discriminate.
  - cbn [for_loop].
    eapply preserves_bind; [apply Hbody|].
    intros a Ha.
    eapply preserves_bind; [apply IH|].
    intros rest [Hlen Hrest].
    apply preserves_ret. split; [simpl; congruence|].
    intros [|k] b Hk.
    + injection Hk as <-. rewrite Z.add_0_r. exact Ha.
    + replace (start + Z.of_nat (S k))%Z with (start + 1 + Z.of_nat k)%Z
        by lia.
      apply Hrest. exact Hk.
Qed.

End Prng.

(* ------------------------------------------------------------------ *)
(** ** Loops and the lists they build *)

Module Loops.
Import JS Three Run.

(** Whatever the state, a loop yields one result per iteration, each the
    result of its body at the iteration's index. *)
Lemma for_loop_elements {A} (body : Z -> Gen A) (n : nat) :
  forall start s,
    List.length (fst (for_loop n start body s)) = n
    /\ forall k a, nth_error (fst (for_loop n start body s)) k = Some a ->
                   exists s', a = fst (body (start + Z.of_nat k)%Z s').
Proof.
  induction n as [|n IH]; intros start s.
  - split; [reflexivity|]. intros [|k] a Hk; discriminate.
  - cbn [for_loop]. unfold bind, ret. cbv zeta. cbn [fst snd].
    destruct (IH (start + 1)%Z (snd (body start s))) as [Hlen Hrest].
    split; [simpl; congruence|].
    intros [|k] a Hk.
    + injection Hk as <-. exists s. rewrite Z.add_0_r. reflexivity.
    + replace (start + Z.of_nat (S k))%Z with (start + 1 + Z.of_nat k)%Z
        by lia.
      apply Hrest. exact Hk.
Qed.

Lemma concat_length_blocks {A} (m : nat) (l : list (list A)) :
  Forall (fun b => List.length b = m) l ->
  List.length (concat l) = (m * List.length l)%nat.
Proof.
  induction 1 as [|b l Hb _ IH]; simpl; [lia|].
  rewrite length_app, IH, Hb. lia.
Qed.

(** In a concatenation of blocks of [m] elements, the [k]-th run of [m]
    elements is the [k]-th block. *)
Lemma concat_block {A} (m : nat) (l : list (list A)) :
  Forall (fun b => List.length b = m) l ->
  forall k b, nth_error l k = Some b ->
    firstn m (skipn (m * k) (concat l)) = b.
Proof.
  induction 1 as [|b0 l Hb0 Hl IH]; intros k b Hk.
  - destruct k; discriminate.
  - destruct k as [|k]; simpl in Hk.
    + injection Hk as <-. rewrite Nat.mul_0_r. simpl.
      rewrite firstn_app, firstn_all2 by lia.
      rewrite Hb0, Nat.sub_diag. simpl. apply app_nil_r.
    + simpl concat.
      replace (m * S k)%nat with (List.length b0 + m * k)%nat by lia.
      rewrite skipn_app, skipn_all2 by lia.
      replace (List.length b0 + m * k - List.length b0)%nat
        with (m * k)%nat by lia.
      simpl. apply IH. exact Hk.
Qed.

Lemma Forall_nth_error {A} (P : A -> Prop) (l : list A) :
  (forall k a, nth_error l k = Some a -> P a) -> Forall P l.
Proof.
  intros Hl. apply Forall_forall. intros a Ha.
  apply In_nth_error in Ha. destruct Ha as [k Hk]. eauto.
Qed.

Lemma nth_error_defined {A} (l : list A) (k : nat) :
  (k < List.length l)%nat -> exists a, nth_error l k = Some a.
Proof.
  intros Hk. destruct (nth_error l k) as [a|] eqn:E; [eauto|].
  apply nth_error_None in E. lia.
Qed.

End Loops.

(* ------------------------------------------------------------------ *)
(** ** The neural-chip scene: geometry *)

Module ChipGeometry.
Import JS Three Run Loops.

Section Generic.
Context {num : Type} `{Num num}.

(** Each iteration of [createCircuitGeo] pushes an orthogonal trace. *)
Lemma circuit_trace_orthogonal (variance : num) (i s : Z) :
  orthogonal_trace (fst (Chip.circuit_trace variance i s)).
Proof.
  unfold Chip.circuit_trace, bind, ret. cbv zeta. cbn [fst snd].
  eexists _, _, _. split; [reflexivity|]. cbn [x y z].
  repeat (split; [reflexivity|]).
  repeat match goal with
         | |- context [if ?b then _ else _] => destruct b
         end; cbn [fst snd]; auto.
Qed.

Lemma circuit_traces_blocks (n : nat) (variance : num) (start s : Z) :
  Forall (fun b => List.length b = 4%nat)
         (fst (for_loop n start (Chip.circuit_trace variance) s)).
Proof.
  apply Forall_nth_error. intros k b Hk.
  apply for_loop_elements in Hk. destruct Hk as [s' ->].
  destruct (circuit_trace_orthogonal variance (start + Z.of_nat k) s')
    as (p1 & p2 & p3 & -> & _).
  reflexivity.
Qed.
End Generic.

(** C9. For every non-negative integer [count], every [variance] and every
    seed, [createCircuitGeo] produces exactly [4 * count] points, all with
    [z = 0], and the four points of every trace form two segments: the
    first of constant x from a start point on the border to the turn
    point, the second of constant y from the turn point to the end
    point. *)
Theorem createCircuitGeo_orthogonal
    (num : Type) (N : Num num) (count : Z) (variance : num) (seed : Z) :
  (0 <= count)%Z ->
  let points := Chip.createCircuitGeo count variance seed in
  Z.of_nat (List.length points) = (4 * count)%Z
  /\ Forall (fun p => z p = of_Z 0) points
  /\ forall k, (k < Z.to_nat count)%nat ->
               orthogonal_trace (trace_at points k).
Proof.
  intros Hcount points.
  unfold Chip.createCircuitGeo, run, iterations, Chip.seededRandom in points.
  set (blocks := fst (for_loop (Z.to_nat count) 0
                        (Chip.circuit_trace variance) seed)) in *.
  assert (Hblocks : Forall (fun b => List.length b = 4%nat) blocks)
    by apply circuit_traces_blocks.
  assert (Hlen : List.length blocks = Z.to_nat count)
    by apply for_loop_elements.
  assert (Hall : forall k b, nth_error blocks k = Some b ->
                             orthogonal_trace b).
  { intros k b Hk. apply for_loop_elements in Hk.
    destruct Hk as [s' ->]. apply circuit_trace_orthogonal. }
  split; [|split].
  - subst points. rewrite (concat_length_blocks Hblocks), Hlen. lia.
  - subst points. apply Forall_concat.
    apply Forall_nth_error. intros k b Hk.
    destruct (Hall k b Hk) as (p1 & p2 & p3 & -> & _ & _ & H1 & H2 & H3 & _).
    repeat constructor; assumption.
  - intros k Hk.
    destruct (@nth_error_defined _ blocks k) as [b Hb]; [lia|].
    unfold trace_at. subst points.
    rewrite (concat_block Hblocks k Hb).
    exact (Hall k b Hb).
Qed.

Lemma createCircuitGeo_orthogonal_witness :
  (0 <= 80)%Z
  /\ let points := Chip.createCircuitGeo (num:=F64) 80 (lit 0.3) 42 in
     Z.of_nat (List.length points) = (4 * 80)%Z
     /\ Forall (fun p => z p = of_Z 0) points
     /\ forall k, (k < Z.to_nat 80)%nat ->
                  orthogonal_trace (trace_at points k).
Proof.
  split; [lia | apply (@createCircuitGeo_orthogonal F64 _ 80); lia].
Defined.

(** *** MicroGreebles *)

Section GreebleLoop.
Context {num : Type} `{Num num}.
Variable Inv : Z -> Prop.
Variable P : Z -> Object3D num -> Prop.
Hypothesis body_keeps : forall i s,
  Inv s -> P i (fst (Chip.greeble i s)) /\ Inv (snd (Chip.greeble i s)).

(** The placement loop leaves [idx] advanced by the number of
    iterations and appends one write per iteration, the [k]-th at index
    [idx + k] with the matrix of iteration [i + k]. *)
Lemma greeble_loop_writes (n : nat) :
  forall i idx mesh s, Inv s ->
    let r := fst (Chip.greeble_loop n i idx mesh s) in
    fst r = (idx + Z.of_nat n)%Z
    /\ capacity (snd r) = capacity mesh
    /\ exists added,
         instanceMatrix (snd r) = instanceMatrix mesh ++ added
         /\ List.length added = n
         /\ forall k w, nth_error added k = Some w ->
               fst w = (idx + Z.of_nat k)%Z
               /\ P (i + Z.of_nat k)%Z (snd w).
Proof.
  induction n as [|n IH]; intros i idx mesh s Hs.
  - cbn. split; [lia|]. split; [reflexivity|].
    exists []. rewrite app_nil_r. split; [reflexivity|].
    split; [reflexivity|]. intros [|k] w Hk; discriminate.
  - cbn [Chip.greeble_loop]. unfold bind. cbv zeta.
    destruct (body_keeps i Hs) as [Hd Hs'].
    set (d := fst (Chip.greeble i s)) in *.
    specialize (IH (i + 1)%Z (idx + 1)%Z (setMatrixAt mesh idx d) _ Hs').
    cbv zeta in IH.
    destruct IH as (Hidx & Hcap & added & Hadd & Hlen & Hall).
    split; [rewrite Hidx; lia|]. split; [exact Hcap|].
    exists ((idx, d) :: added).
    split; [rewrite Hadd; cbn; rewrite <- app_assoc; reflexivity|].
    split; [cbn; congruence|].
    intros [|k] w Hk.
    + injection Hk as <-. cbn. rewrite !Z.add_0_r. auto.
    + specialize (Hall k w Hk).
      replace (idx + Z.of_nat (S k))%Z with (idx + 1 + Z.of_nat k)%Z
        by lia.
      replace (i + Z.of_nat (S k))%Z with (i + 1 + Z.of_nat k)%Z by lia.
      exact Hall.
Qed.
End GreebleLoop.

Ltac js_real :=
  unfold lit in *;
  cbn [Qnum Qden of_Z add sub mul div gtb ltb Num_R fst snd to_float32
       Three.x Three.y Three.z position rotation scale] in *.

Lemma side_abs (b : bool) (r : R) :
  (0 <= r < 1)%R ->
  (1 <= Rabs ((if b then IZR 1 else IZR (-1)) * (10 / 10 + r * (4 / 10))))%R.
Proof.
  intros Hr. destruct b.
  - rewrite Rabs_right; lra.
  - rewrite Rabs_left; lra.
Qed.

Lemma greeble_outside_core (i : Z) :
  preserves (Chip.greeble (num:=R) i) (outside_core i).
Proof.
  unfold Chip.greeble. cbv zeta.
  eapply Prng.preserves_bind with
    (P := fun xy => ((i < 100)%Z -> (1 <= Rabs (snd xy))%R)
                    /\ ((100 <= i)%Z -> (1 <= Rabs (fst xy))%R)).
  - destruct (i <? 100)%Z eqn:Hi.
    + apply Z.ltb_lt in Hi.
      eapply Prng.preserves_bind; [apply Prng.preserves_rand|].
      intros r1 Hr1.
      eapply Prng.preserves_bind; [apply Prng.preserves_rand|].
      intros r2 Hr2.
      eapply Prng.preserves_bind; [apply Prng.preserves_rand|].
      intros r3 Hr3.
      apply Prng.preserves_ret. js_real.
      split; [intros _; apply side_abs; exact Hr3 | lia].
    + apply Z.ltb_ge in Hi.
      eapply Prng.preserves_bind; [apply Prng.preserves_rand|].
      intros r1 Hr1.
      eapply Prng.preserves_bind; [apply Prng.preserves_rand|].
      intros r2 Hr2.
      eapply Prng.preserves_bind; [apply Prng.preserves_rand|].
      intros r3 Hr3.
      apply Prng.preserves_ret. js_real.
      split; [lia | intros _; apply side_abs; exact Hr2].
  - intros [px py] [Hy Hx].
    eapply Prng.preserves_bind; [apply Prng.preserves_rand|].
    intros r4 Hr4.
    apply Prng.preserves_ret. unfold outside_core.
    cbn [position x y fst snd] in *.
    split; [exact Hy|]. split; [exact Hx|].
    intros [H1 H2].
    destruct (Z.lt_ge_cases i 100) as [Hi|Hi];
      [specialize (Hy Hi)|specialize (Hx Hi)]; lra.
Qed.

Lemma seed_1337_in_range : in_range 1337.
Proof. unfold in_range, modulus. lia. Qed.

(** C10. Each of the 200 greebles is placed with [|y| >= 1] (instances 0
    to 99) or [|x| >= 1] (instances 100 to 199), so none lies in the open
    square [|x| < 1], [|y| < 1]; afterwards the mesh's [count] is 200.
    Stated for exact real arithmetic and checked on the binary64 numbers
    of the actual run. *)
Theorem greebles_avoid_core :
  (exists mesh,
     Chip.MicroGreebles_useLayoutEffect (Some (Chip.new_InstancedMesh (num:=R)))
     = Some mesh
     /\ instance_count mesh = 200%Z
     /\ List.length (instanceMatrix mesh) = 200%nat
     /\ Forall (fun w => outside_core (fst w) (snd w)) (instanceMatrix mesh))
  /\ (exists mesh,
        Chip.MicroGreebles_useLayoutEffect
          (Some (Chip.new_InstancedMesh (num:=F64))) = Some mesh
        /\ instance_count mesh = 200%Z
        /\ List.length (instanceMatrix mesh) = 200%nat
        /\ forallb F64_outside_core (instanceMatrix mesh) = true).
Proof.
  split.
  - unfold Chip.MicroGreebles_useLayoutEffect, run, Chip.seededRandom.
    pose proof (@greeble_loop_writes R _ in_range outside_core
                  (fun i s Hs => greeble_outside_core i Hs)
                  (iterations Chip.greeble_count) 0 0
                  Chip.new_InstancedMesh 1337%Z seed_1337_in_range) as Hw.
    cbv zeta in Hw.
    destruct (fst (Chip.greeble_loop (iterations Chip.greeble_count) 0 0
                     Chip.new_InstancedMesh 1337%Z)) as [idx mesh'].
    cbn [fst snd] in Hw.
    destruct Hw as (Hidx & _ & added & Hadd & Hlen & Hall).
    eexists. split; [reflexivity|].
    cbn [set_count instance_count instanceMatrix].
    cbn in Hadd. rewrite Hadd.
    split; [rewrite Hidx; reflexivity|].
    split; [rewrite Hlen; reflexivity|].
    apply Forall_nth_error. intros k w Hk.
    destruct (Hall k w Hk) as [Hi Hp].
    rewrite Hi. exact Hp.
  - eexists. split; [vm_compute; reflexivity|].
    split; [reflexivity|]. split; vm_compute; reflexivity.
Qed.

End ChipGeometry.

(* ------------------------------------------------------------------ *)
(** ** The sphere scenes: geometry *)

Module SphereGeometry.
Import JS Three Run Loops.

Section Generic.
Context {num : Type} `{Num num}.

Lemma SphereB_select_faces_eq :
  SphereB.select_faces (num:=num) = SphereA.select_faces.
Proof. reflexivity. Qed.

(** Fuel beyond what the selection needs does not change its result. *)
Lemma select_faces_more_fuel (fuel extra wanted : nat) (totalFaces : num) :
  forall faceIndices s result,
    fst (SphereA.select_faces fuel wanted totalFaces faceIndices s)
    = Some result ->
    fst (SphereA.select_faces (fuel + extra) wanted totalFaces faceIndices s)
    = Some result.
Proof.
  induction fuel as [|fuel IH]; intros faceIndices s result.
  - destruct extra; cbn [Nat.add SphereA.select_faces];
      destruct (List.length faceIndices <? wanted)%nat;
      cbn; intros Hr; try discriminate; exact Hr.
  - cbn [Nat.add SphereA.select_faces].
    destruct (List.length faceIndices <? wanted)%nat; [|auto].
    unfold bind. cbv zeta. apply IH.
Qed.
End Generic.

(** *** Buffer indices, at the exact reals *)

Lemma floor_index (r : R) (k : Z) :
  (0 <= r < 1)%R -> (0 < k)%Z ->
  (0 <= IZR (Int_part (r * IZR k)) <= IZR k - 1)%R.
Proof.
  intros Hr Hk.
  assert (HkR : (0 < IZR k)%R) by (apply IZR_lt; exact Hk).
  destruct (base_Int_part (r * IZR k)) as [Hle Hgt].
  set (ip := Int_part (r * IZR k)) in *.
  assert (H0 : (0 <= r * IZR k)%R) by (apply Rmult_le_pos; lra).
  assert (H1 : (r * IZR k < IZR k)%R) by nra.
  assert (Hlo : (-1 < ip)%Z) by (apply lt_IZR; lra).
  assert (Hhi : (ip < k)%Z) by (apply lt_IZR; lra).
  split.
  - apply IZR_le. lia.
  - rewrite <- minus_IZR. apply IZR_le. lia.
Qed.

Lemma Set_add_Forall {num} `{Num num} (P : num -> Prop)
    (set : list num) (v : num) :
  Forall P set -> P v -> Forall P (Set_add set v).
Proof.
  intros Hs Hv. unfold Set_add.
  destruct (existsb (same_value_zero v) set); [exact Hs|].
  apply Forall_app. split; [exact Hs|]. constructor; [exact Hv|constructor].
Qed.

(** Every face the selection holds was drawn, and so has what every draw
    has. *)
Lemma select_faces_every (P : R -> Prop) (totalFaces : R) :
  (forall r, (0 <= r < 1)%R -> P (Math_floor (mul r totalFaces))) ->
  forall fuel wanted faceIndices,
    Forall P faceIndices ->
    preserves (SphereA.select_faces fuel wanted totalFaces faceIndices)
              (every_face P).
Proof.
  intros Hdraw. induction fuel as [|fuel IH]; intros wanted faceIndices Hf;
    cbn [SphereA.select_faces];
    destruct (List.length faceIndices <? wanted)%nat;
    try (apply Prng.preserves_ret; exact Hf || exact I).
  eapply Prng.preserves_bind; [apply Prng.preserves_rand|].
  intros r Hr. apply IH. apply Set_add_Forall; [exact Hf|].
  apply Hdraw. exact Hr.
Qed.

Lemma total_faces (pos : BufferAttribute R) (faces : Z) :
  count pos = (3 * faces)%Z ->
  div (of_Z (count pos)) (of_Z 3) = IZR faces.
Proof.
  intros ->. cbn [div of_Z Num_R]. rewrite mult_IZR. field.
Qed.

Lemma face_reads_in_bounds (pos : BufferAttribute R) (faces : Z) (r : R) :
  (0 < faces)%Z -> count pos = (3 * faces)%Z -> (0 <= r < 1)%R ->
  Forall (in_bounds pos)
    (SphereA.panel_reads (Math_floor (mul r (IZR faces)))).
Proof.
  intros Hf Hc Hr.
  destruct (@floor_index r faces Hr Hf) as [Hlo Hhi].
  unfold SphereA.panel_reads, in_bounds. cbv zeta. rewrite Hc, mult_IZR.
  cbn [Math_floor mul add of_Z Num_R].
  set (fi := IZR (Int_part (r * IZR faces))) in *.
  repeat (constructor; [lra|]). constructor.
Qed.

Ltac four_draws :=
  do 4 (eapply Prng.preserves_bind; [apply Prng.preserves_rand|];
        let r := fresh "r" in let Hr := fresh "Hr" in intros r Hr).

Lemma SphereA_beam_in_bounds (pos : BufferAttribute R) (i : Z) :
  (0 < count pos)%Z ->
  preserves (SphereA.beam pos i) (fun b => in_bounds pos (fst b)).
Proof.
  intros Hc. unfold SphereA.beam. cbv zeta. four_draws.
  apply Prng.preserves_ret. cbn [fst]. unfold in_bounds.
  destruct (@floor_index r (count pos) Hr Hc) as [Hlo Hhi].
  cbn [Math_floor mul of_Z Num_R]. lra.
Qed.

Lemma SphereB_beam_in_bounds (pos : BufferAttribute R) (i : Z) :
  (0 < count pos)%Z ->
  preserves (SphereB.beam pos i) (fun b => in_bounds pos (fst b)).
Proof.
  intros Hc. unfold SphereB.beam. cbv zeta. four_draws.
  apply Prng.preserves_ret. cbn [fst]. unfold in_bounds.
  destruct (@floor_index r (count pos) Hr Hc) as [Hlo Hhi].
  cbn [Math_floor mul of_Z Num_R]. lra.
Qed.

Lemma seed_in_range (seed : Z) :
  (0 <? seed)%Z && (seed <? modulus)%Z = true -> in_range seed.
Proof.
  intros Hs. apply andb_true_iff in Hs. destruct Hs as [H1 H2].
  apply Z.ltb_lt in H1, H2. split; assumption.
Qed.

Lemma for_loop_Forall {A} (body : Z -> Gen A) (P : A -> Prop)
    (n : nat) (seed : Z) :
  (forall i, preserves (body i) P) -> in_range seed ->
  Forall P (run (for_loop n 0 body) seed).
Proof.
  intros Hbody Hseed.
  destruct (@Prng.preserves_for_loop A body (fun _ => P) Hbody n 0%Z
              seed Hseed) as [[_ Hall] _].
  apply Forall_nth_error. exact Hall.
Qed.

(** C4. No construction step indexes a buffer out of bounds. For a
    position buffer of [3 * faces] vertices, [faces > 0]: the three
    indices read for every selected panel face, and the index read for
    every beam, lie in [0, count); every greeble is written at an index
    below the 200 declared instances. Stated for exact real arithmetic
    and checked on the binary64 numbers of the run over the 240-vertex
    icosahedron. *)
Theorem buffer_indices_in_bounds
    (pos : BufferAttribute R) (faces : Z) (fuel : nat)
    (read : F64 -> Vector3 F64) :
  (0 < faces)%Z -> count pos = (3 * faces)%Z ->
  every_face (fun fi => Forall (in_bounds pos) (SphereA.panel_reads fi))
             (SphereA.panel_faces fuel pos)
  /\ every_face (fun fi => Forall (in_bounds pos) (SphereB.panel_reads fi))
               (SphereB.panel_faces fuel pos)
  /\ Forall (fun b => in_bounds pos (fst b)) (SphereA.beam_runs pos)
  /\ Forall (fun b => in_bounds pos (fst b)) (SphereB.beam_runs pos)
  /\ (exists mesh,
        Chip.MicroGreebles_useLayoutEffect
          (Some (Chip.new_InstancedMesh (num:=R))) = Some mesh
        /\ capacity mesh = 200%Z
        /\ Forall (fun w => (0 <= fst w < capacity mesh)%Z)
                  (instanceMatrix mesh))
  /\ F64_indices_in_bounds (icoGeo_position read) = true.
Proof.
  intros Hfaces Hcount.
  assert (Hpos : (0 < count pos)%Z) by lia.
  split; [|split; [|split; [|split; [|split]]]].
  - unfold SphereA.panel_faces, run. cbv zeta.
    rewrite (@total_faces pos faces Hcount).
    apply select_faces_every; [|constructor|apply seed_in_range; reflexivity].
    intros r Hr. apply face_reads_in_bounds; assumption.
  - unfold SphereB.panel_faces, run. cbv zeta.
    rewrite (@total_faces pos faces Hcount).
    apply (@select_faces_every
             (fun fi => Forall (in_bounds pos) (SphereB.panel_reads fi)));
      [|constructor|apply seed_in_range; reflexivity].
    intros r Hr. apply face_reads_in_bounds; assumption.
  - apply for_loop_Forall; [|apply seed_in_range; reflexivity].
    intros i. apply SphereA_beam_in_bounds. exact Hpos.
  - apply for_loop_Forall; [|apply seed_in_range; reflexivity].
    intros i. apply SphereB_beam_in_bounds. exact Hpos.
  - unfold Chip.MicroGreebles_useLayoutEffect, run, Chip.seededRandom.
    pose proof (@ChipGeometry.greeble_loop_writes R _
                  (fun _ => True) (fun _ _ => True)
                  (fun _ _ _ => conj I I)
                  (iterations Chip.greeble_count) 0 0
                  Chip.new_InstancedMesh 1337%Z I) as Hw.
    cbv zeta in Hw.
    destruct (fst (Chip.greeble_loop (iterations Chip.greeble_count) 0 0
                     Chip.new_InstancedMesh 1337%Z)) as [idx mesh'].
    cbn [fst snd] in Hw.
    destruct Hw as (_ & Hcap & added & Hadd & Hlen & Hall).
    eexists. split; [reflexivity|].
    cbn [set_count capacity instanceMatrix].
    split; [exact Hcap|].
    rewrite Hcap, Hadd. cbn [Chip.new_InstancedMesh instanceMatrix capacity].
    cbn [app]. apply Forall_nth_error. intros k w Hk.
    destruct (Hall k w Hk) as [-> _].
    assert (Hk' : nth_error added k <> None) by congruence.
    apply nth_error_Some in Hk'. rewrite Hlen in Hk'.
    unfold Chip.greeble_count, iterations in *. lia.
  - vm_compute. reflexivity.
Qed.

Lemma buffer_indices_in_bounds_witness :
  (0 < 80)%Z /\ count flat_icoGeo = (3 * 80)%Z
  /\ every_face
       (fun fi => Forall (in_bounds flat_icoGeo) (SphereA.panel_reads fi))
       (SphereA.panel_faces 3 flat_icoGeo)
  /\ Forall (fun b => in_bounds flat_icoGeo (fst b))
            (SphereA.beam_runs flat_icoGeo).
Proof.
  split; [lia|]. split; [reflexivity|].
  pose proof (@buffer_indices_in_bounds flat_icoGeo 80 3
                (fun _ => mkVector3 (F64_of_Z 0) (F64_of_Z 0) (F64_of_Z 0))
                ltac:(lia) eq_refl) as H.
  split; [apply H | apply H].
Defined.

(** C2. On the 80 faces of the icosahedron the panel selection returns:
    with seed 77 after three draws, with the faces 0, 10 and 14, and with
    seed 123 after four draws, with the faces 0, 14, 75 and 33, whatever
    larger bound is put on the number of draws; the panel geometries are
    then built, one for each face. *)
Theorem panel_selection_terminates
    (read : F64 -> Vector3 F64) (extra : nat) :
  SphereA.panel_faces (3 + extra) (icoGeo_position read)
  = Some (map F64_of_Z [0; 10; 14]%Z)
  /\ SphereB.panel_faces (4 + extra) (icoGeo_position read)
    = Some (map F64_of_Z [0; 14; 75; 33]%Z)
  /\ option_map (@List.length _)
       (SphereA.panelGeos (3 + extra) (icoGeo_position read)) = Some 3%nat
  /\ option_map (@List.length _)
       (SphereB.panelGeos (4 + extra) (icoGeo_position read)) = Some 4%nat.
Proof.
  assert (HA : SphereA.panel_faces (3 + extra) (icoGeo_position read)
               = Some (map F64_of_Z [0; 10; 14]%Z)).
  { unfold SphereA.panel_faces, run. cbv zeta.
    apply select_faces_more_fuel. vm_compute. reflexivity. }
  assert (HB : SphereB.panel_faces (4 + extra) (icoGeo_position read)
               = Some (map F64_of_Z [0; 14; 75; 33]%Z)).
  { unfold SphereB.panel_faces, run. cbv zeta.
    rewrite SphereB_select_faces_eq.
    apply select_faces_more_fuel. vm_compute. reflexivity. }
  split; [exact HA|]. split; [exact HB|].
  unfold SphereA.panelGeos, SphereB.panelGeos.
  rewrite HA, HB. split; reflexivity.
Qed.

End SphereGeometry.

(* ------------------------------------------------------------------ *)
(** ** Colours, opacities and the frame callbacks *)

Module Animation.
Import JS Three Run Loops.

Ltac js_real :=
  unfold lit in *;
  cbn [Qnum Qden of_Z add sub mul div gtb ltb Num_R Trig_R Math_sin Math_cos
       fst snd to_float32 map
       Three.x Three.y Three.z position rotation scale opacity material
       intensity hue] in *.

Ltac unit_list :=
  repeat (constructor; [unfold unit_interval; lra|]); constructor.

Lemma SphereA_edge_color_unit (i : Z) :
  preserves (SphereA.edge_color (num:=R) i) (Forall unit_interval).
Proof.
  unfold SphereA.edge_color.
  eapply Prng.preserves_bind; [apply Prng.preserves_rand|]. intros b Hb.
  apply Prng.preserves_ret. js_real. unfold Rgtb.
  repeat destruct Rlt_dec; js_real; unit_list.
Qed.

Lemma SphereB_edge_color_unit (i : Z) :
  preserves (SphereB.edge_color (num:=R) i) (Forall unit_interval).
Proof.
  unfold SphereB.edge_color.
  eapply Prng.preserves_bind; [apply Prng.preserves_rand|]. intros b Hb.
  apply Prng.preserves_ret. js_real. unfold Rgtb.
  repeat destruct Rlt_dec; js_real; unit_list.
Qed.

Lemma edge_colors_unit (body : Z -> Gen (list R)) (count : Z) :
  (forall i, preserves (body i) (Forall unit_interval)) ->
  Forall unit_interval
    (concat (run (for_loop (iterations count) 0 body) 42%Z)).
Proof.
  intros Hb. apply Forall_concat.
  apply SphereGeometry.for_loop_Forall; [exact Hb|].
  apply SphereGeometry.seed_in_range. reflexivity.
Qed.

Lemma SphereA_beams_unit (t : R) (lines : list (Line R)) :
  forall i, Forall (fun l => unit_interval (opacity (material l)))
                   (SphereA.beams_forEach t i lines).
Proof.
  induction lines as [|l rest IH]; intros i; cbn [SphereA.beams_forEach].
  - constructor.
  - constructor; [|apply IH].
    unfold SphereA.set_opacity. js_real. unfold unit_interval.
    pose proof (SIN_bound (t * (18 / 10) + IZR i * (11 / 10))). lra.
Qed.

Lemma SphereB_beams_unit (t : R) (lines : list (Line R)) :
  forall i w, (forall k, (0 <= stream w k < 1)%R) ->
    Forall (fun l => unit_interval (opacity (material l)))
           (fst (SphereB.beams_forEach t i lines w)).
Proof.
  induction lines as [|l rest IH]; intros i w Hw; cbn [SphereB.beams_forEach].
  - constructor.
  - unfold Math_random.
    specialize (IH (i + 1)%Z (mkWorld (stream w) (S (cursor w))) Hw).
    destruct (SphereB.beams_forEach t (i + 1) rest
                (mkWorld (stream w) (S (cursor w)))) as [rest' w2].
    cbn [fst] in *. constructor; [|exact IH].
    unfold SphereB.set_opacity. js_real. unfold unit_interval.
    pose proof (SIN_bound (t * (20 / 10) + IZR i * (100 / 10))).
    pose proof (Hw (cursor w)). lra.
Qed.

(** C3. Colours and opacities stay in [0, 1]: every component of the edge
    colours of both sphere scenes, for any number of edge vertices; the
    inner-glow and beam opacities the first sphere's frame callback
    writes, at every time [t]; and those the second sphere's callback
    writes, at every time [t] and for every ambient random stream with
    values in [0, 1). *)
Theorem color_and_opacity_ranges
    (count : Z) (t : R) (stA : SphereA.SceneState (num:=R))
    (stB : SphereB.SceneState (num:=R)) (w : World R) :
  (forall k, (0 <= stream w k < 1)%R) ->
  Forall unit_interval (SphereA.edge_colors count)
  /\ Forall unit_interval (SphereB.edge_colors count)
  /\ (let st' := SphereA.AICoreSphere_useFrame t stA in
      opacities_in_unit (SphereA.innerGlowRef st') (SphereA.beams st'))
  /\ (let st' := fst (SphereB.AICoreSphere_useFrame t stB w) in
      opacities_in_unit (SphereB.innerGlowRef st') (SphereB.beams st')).
Proof.
  intros Hw.
  split; [apply edge_colors_unit, SphereA_edge_color_unit|].
  split; [apply edge_colors_unit, SphereB_edge_color_unit|].
  split.
  - cbv zeta. unfold SphereA.AICoreSphere_useFrame, opacities_in_unit.
    cbn [SphereA.innerGlowRef SphereA.beams].
    split; [|apply SphereA_beams_unit].
    destruct (SphereA.innerGlowRef stA) as [m|]; [|exact I].
    cbn [when_attached]. unfold SphereA.set_opacity. js_real.
    unfold unit_interval. pose proof (SIN_bound (t * (8 / 10))). lra.
  - cbv zeta. unfold SphereB.AICoreSphere_useFrame, opacities_in_unit.
    destruct (SphereB.panelLightRef stB) as [l|]; unfold Math_random.
    + pose proof (@SphereB_beams_unit t (SphereB.beams stB) 0%Z
                    (mkWorld (stream w) (S (cursor w))) Hw) as Hb.
      destruct (SphereB.beams_forEach t 0 (SphereB.beams stB)
                  (mkWorld (stream w) (S (cursor w)))) as [beams' w2].
      cbn [fst SphereB.innerGlowRef SphereB.beams] in *.
      split; [|exact Hb].
      destruct (SphereB.innerGlowRef stB) as [m|]; [|exact I].
      cbn [when_attached]. unfold SphereB.set_opacity. js_real.
      unfold unit_interval. pose proof (SIN_bound (t * (5 / 10))). lra.
    + pose proof (@SphereB_beams_unit t (SphereB.beams stB) 0%Z w Hw) as Hb.
      destruct (SphereB.beams_forEach t 0 (SphereB.beams stB) w)
        as [beams' w2].
      cbn [fst SphereB.innerGlowRef SphereB.beams] in *.
      split; [|exact Hb].
      destruct (SphereB.innerGlowRef stB) as [m|]; [|exact I].
      cbn [when_attached]. unfold SphereB.set_opacity. js_real.
      unfold unit_interval. pose proof (SIN_bound (t * (5 / 10))). lra.
Qed.

Lemma color_and_opacity_ranges_witness :
  (forall k, (0 <= stream idle_world k < 1)%R)
  /\ Forall unit_interval (SphereA.edge_colors 240)
  /\ Forall unit_interval (SphereB.edge_colors 240)
  /\ (let st' := SphereA.AICoreSphere_useFrame 0%R SphereA_sample in
      opacities_in_unit (SphereA.innerGlowRef st') (SphereA.beams st'))
  /\ (let st' :=
        fst (SphereB.AICoreSphere_useFrame 0%R SphereB_sample idle_world) in
      opacities_in_unit (SphereB.innerGlowRef st') (SphereB.beams st')).
Proof.
  assert (Hw : forall k, (0 <= stream idle_world k < 1)%R)
    by (intros k; cbn; lra).
  split; [exact Hw|].
  exact (@color_and_opacity_ranges 240 0%R SphereA_sample SphereB_sample
           idle_world Hw).
Defined.

(** *** Frame callbacks *)

Section Generic.
Context {num : Type} `{Num num} `{Trig num}.
Variable Matrix4_lookAt :
  Vector3 num -> Vector3 num -> Vector3 num -> Vector3 num.

(** When a later frame makes an earlier one irrelevant, only the last
    time of a run of frames matters. *)
Lemma run_frames_last {state} (frame : num -> state -> state) :
  (forall t u st, frame t (frame u st) = frame t st) ->
  forall ts t st, run_frames frame (ts ++ [t]) st = frame t st.
Proof.
  intros Habsorb ts t. unfold run_frames.
  induction ts as [|u ts IH]; intros st; [reflexivity|].
  cbn [app fold_left]. rewrite IH. apply Habsorb.
Qed.

Lemma Chip_frame_absorbs (t u : num) (st : Chip.SceneState) :
  Chip.frame t (Chip.frame u st) = Chip.frame t st.
Proof.
  destruct st as [[g|] [l|] [p|] [m|]]; reflexivity.
Qed.

Lemma SphereA_beams_absorb (t u : num) (lines : list (Line num)) :
  forall i, SphereA.beams_forEach t i (SphereA.beams_forEach u i lines)
            = SphereA.beams_forEach t i lines.
Proof.
  induction lines as [|l rest IH]; intros i; [reflexivity|].
  cbn [SphereA.beams_forEach]. rewrite IH. reflexivity.
Qed.

Lemma SphereA_SceneState_eq (st1 st2 : SphereA.SceneState (num:=num)) :
  SphereA.groupRef st1 = SphereA.groupRef st2 ->
  SphereA.panelLightRef st1 = SphereA.panelLightRef st2 ->
  SphereA.innerGlowRef st1 = SphereA.innerGlowRef st2 ->
  SphereA.beams st1 = SphereA.beams st2 ->
  SphereA.keyRef st1 = SphereA.keyRef st2 ->
  SphereA.rimRef st1 = SphereA.rimRef st2 ->
  SphereA.camera st1 = SphereA.camera st2 ->
  SphereA.pointsRef st1 = SphereA.pointsRef st2 ->
  st1 = st2.
Proof.
  destruct st1, st2. cbn. intros. subst. reflexivity.
Qed.

(** Unfold the callbacks of one frame, outermost first, projecting the
    record each of them builds. *)
Ltac project_state :=
  cbn [SphereA.groupRef SphereA.panelLightRef SphereA.innerGlowRef
       SphereA.beams SphereA.keyRef SphereA.rimRef SphereA.camera
       SphereA.pointsRef].

Ltac enter_callback :=
  unfold SphereA.ParticleField_useFrame at 1; project_state;
  unfold SphereA.AICoreSphere_useFrame at 1; project_state;
  unfold SphereA.SceneLights_useFrame at 1; project_state;
  unfold SphereA.CameraDrift_useFrame at 1; project_state.

Lemma SphereA_frame_absorbs (t u : num) (st : SphereA.SceneState) :
  SphereA.frame Matrix4_lookAt t (SphereA.frame Matrix4_lookAt u st)
  = SphereA.frame Matrix4_lookAt t st.
Proof.
  unfold SphereA.frame.
  apply SphereA_SceneState_eq.
  - do 3 enter_callback. destruct (SphereA.groupRef st); reflexivity.
  - do 3 enter_callback. destruct (SphereA.panelLightRef st); reflexivity.
  - do 3 enter_callback. destruct (SphereA.innerGlowRef st); reflexivity.
  - do 3 enter_callback. apply SphereA_beams_absorb.
  - do 3 enter_callback. destruct (SphereA.keyRef st); reflexivity.
  - do 3 enter_callback. destruct (SphereA.rimRef st); reflexivity.
  - do 3 enter_callback. reflexivity.
  - do 3 enter_callback. destruct (SphereA.pointsRef st); reflexivity.
Qed.
End Generic.


(** C7. With its refs attached, the chip's frame callback at time [t] sets
    the core light's intensity to [8.0 + 2.0 * sin (1.5 t)], within
    [6, 10], and the group's rotation to
    [(sin (0.05 t) * 0.08, sin (0.03 t) * 0.12)]; the first sphere's
    [SceneLights] callback sets the rim light's intensity to
    [1.8 + 0.4 * sin (0.6 t)], within [1.4, 2.2], and the key light's to
    [3.5 + 0.3 * sin (0.4 t)], within [3.2, 3.8]. *)
Theorem frame_updates_closed_form
    (t : R) (g : Object3D R) (l key rim : Light R)
    (stC : Chip.SceneState (num:=R)) (stA : SphereA.SceneState (num:=R)) :
  Chip.groupRef stC = Some g -> Chip.coreLightRef stC = Some l ->
  SphereA.keyRef stA = Some key -> SphereA.rimRef stA = Some rim ->
  (exists g' l',
      Chip.groupRef (Chip.NeuralChip_useFrame t stC) = Some g'
      /\ Chip.coreLightRef (Chip.NeuralChip_useFrame t stC) = Some l'
      /\ intensity l' = (8.0 + 2.0 * sin (1.5 * t))%R
      /\ (6 <= intensity l' <= 10)%R
      /\ x (rotation g') = (sin (0.05 * t) * 0.08)%R
      /\ y (rotation g') = (sin (0.03 * t) * 0.12)%R)
  /\ (exists key' rim',
        SphereA.keyRef (SphereA.SceneLights_useFrame t stA) = Some key'
        /\ SphereA.rimRef (SphereA.SceneLights_useFrame t stA) = Some rim'
        /\ intensity rim' = (1.8 + 0.4 * sin (0.6 * t))%R
        /\ (1.4 <= intensity rim' <= 2.2)%R
        /\ intensity key' = (3.5 + 0.3 * sin (0.4 * t))%R
        /\ (3.2 <= intensity key' <= 3.8)%R).
Proof.
  intros Hg Hl Hk Hr. split.
  - unfold Chip.NeuralChip_useFrame. rewrite Hg, Hl.
    cbn [Chip.groupRef Chip.coreLightRef].
    eexists _, _. split; [reflexivity|]. split; [reflexivity|].
    unfold set_x, set_y. js_real.
    replace (1.5 * t)%R with (t * (15 / 10))%R by lra.
    replace (0.05 * t)%R with (t * (5 / 100))%R by lra.
    replace (0.03 * t)%R with (t * (3 / 100))%R by lra.
    pose proof (SIN_bound (t * (15 / 10))).
    repeat split; lra.
  - unfold SphereA.SceneLights_useFrame. rewrite Hk, Hr.
    cbn [SphereA.keyRef SphereA.rimRef].
    eexists _, _. split; [reflexivity|]. split; [reflexivity|].
    unfold SphereA.set_intensity. js_real.
    replace (0.6 * t)%R with (t * (6 / 10))%R by lra.
    replace (0.4 * t)%R with (t * (4 / 10))%R by lra.
    pose proof (SIN_bound (t * (6 / 10))).
    pose proof (SIN_bound (t * (4 / 10))).
    repeat split; lra.
Qed.

Lemma frame_updates_closed_form_witness :
  Chip.groupRef Chip_sample = Some sample_object
  /\ Chip.coreLightRef Chip_sample = Some sample_light
  /\ SphereA.keyRef SphereA_sample = Some sample_light
  /\ SphereA.rimRef SphereA_sample = Some sample_light
  /\ (exists g' l',
        Chip.groupRef (Chip.NeuralChip_useFrame 2%R Chip_sample) = Some g'
        /\ Chip.coreLightRef (Chip.NeuralChip_useFrame 2%R Chip_sample)
          = Some l'
        /\ intensity l' = (8.0 + 2.0 * sin (1.5 * 2))%R
        /\ (6 <= intensity l' <= 10)%R
        /\ x (rotation g') = (sin (0.05 * 2) * 0.08)%R
        /\ y (rotation g') = (sin (0.03 * 2) * 0.12)%R).
Proof.
  repeat (split; [reflexivity|]).
  exact (proj1 (@frame_updates_closed_form 2%R sample_object sample_light
                  sample_light sample_light Chip_sample SphereA_sample
                  eq_refl eq_refl eq_refl eq_refl)).
Defined.

End Animation.

(* ------------------------------------------------------------------ *)
(** ** The seeded generator outside and inside its range *)

Module PrngEdge.
Import JS Three Run.

Lemma rand_value_R (s : Z) :
  fst (Chip.rand (num:=R) s)
  = ((IZR (Z.rem (s * 16807) 2147483647) - 1) / 2147483646)%R.
Proof. reflexivity. Qed.

Lemma state_after_S {num} (rand : Gen num) (seed : Z) (n : nat) :
  state_after rand seed (S n) = snd (rand (state_after rand seed n)).
Proof. reflexivity. Qed.

(** X1. The closure never merges two states: from two different states in
    range, a call leaves two different states and returns two different
    values. *)
Theorem rand_never_merges (s1 s2 : Z) :
  in_range s1 -> in_range s2 -> s1 <> s2 ->
  snd (Chip.rand (num:=R) s1) <> snd (Chip.rand (num:=R) s2)
  /\ fst (Chip.rand (num:=R) s1) <> fst (Chip.rand (num:=R) s2).
Proof.
  intros H1 H2 Hne.
  assert (Hs : Z.rem (s1 * 16807) 2147483647
               <> Z.rem (s2 * 16807) 2147483647).
  { unfold in_range, modulus in *.
    rewrite !Z.rem_mod_nonneg by lia. intros Heq.
    assert (Hd : (2147483647 | (s1 - s2) * 16807)%Z).
    { apply Z.mod_divide; [lia|].
      rewrite Z.mul_sub_distr_r, Zminus_mod, Heq, Z.sub_diag.
      reflexivity. }
    rewrite Z.mul_comm in Hd.
    apply Z.gauss in Hd; [|exact Prng.modulus_coprime].
    destruct Hd as [k Hk]. nia. }
  split; [rewrite !Prng.rand_state; exact Hs|].
  rewrite !rand_value_R. intros Heq. apply Hs.
  apply eq_IZR. lra.
Qed.

Lemma rand_never_merges_witness :
  in_range 42 /\ in_range 77 /\ 42%Z <> 77%Z
  /\ snd (Chip.rand (num:=R) 42%Z) <> snd (Chip.rand (num:=R) 77%Z)
  /\ fst (Chip.rand (num:=R) 42%Z) <> fst (Chip.rand (num:=R) 77%Z).
Proof.
  assert (Ha : in_range 42) by (unfold in_range, modulus; lia).
  assert (Hb : in_range 77) by (unfold in_range, modulus; lia).
  assert (Hc : 42%Z <> 77%Z) by lia.
  split; [exact Ha|]. split; [exact Hb|]. split; [exact Hc|].
  exact (rand_never_merges Ha Hb Hc).
Defined.

Lemma next_nonpositive (s : Z) :
  (s <= 0)%Z -> (- 2147483647 < Z.rem (s * 16807) 2147483647 <= 0)%Z.
Proof.
  intros Hs.
  pose proof (Z.rem_bound_pos_neg (s * 16807) 2147483647) as Hb.
  lia.
Qed.

(** X2. A seed that is not positive takes the generator out of [0, 1):
    the state never becomes positive and every value returned is
    negative. *)
Theorem nonpositive_seed_yields_negatives (seed : Z) (n : nat) :
  (- 2147483647 <= seed <= 0)%Z ->
  (state_after (Chip.rand (num:=R)) (Chip.seededRandom seed) n <= 0)%Z
  /\ (nth_value (Chip.rand (num:=R)) (Chip.seededRandom seed) n < 0)%R.
Proof.
  intros [_ Hs]. unfold Chip.seededRandom.
  assert (Hn : (state_after (Chip.rand (num:=R)) seed n <= 0)%Z).
  { induction n as [|n IH]; [exact Hs|].
    rewrite state_after_S, Prng.rand_state.
    apply next_nonpositive. exact IH. }
  split; [exact Hn|].
  unfold nth_value. rewrite rand_value_R.
  apply next_nonpositive in Hn.
  set (s' := Z.rem _ _) in *.
  assert (IZR s' <= 0)%R by (apply IZR_le; lia).
  apply Rmult_lt_reg_r with 2147483646%R; [lra|].
  unfold Rdiv. rewrite Rmult_assoc, Rinv_l by lra. lra.
Qed.

Lemma nonpositive_seed_yields_negatives_witness :
  (- 2147483647 <= -5 <= 0)%Z
  /\ (state_after (Chip.rand (num:=R)) (Chip.seededRandom (-5)) 3 <= 0)%Z
  /\ (nth_value (Chip.rand (num:=R)) (Chip.seededRandom (-5)) 3 < 0)%R.
Proof.
  split; [lia|].
  apply (@nonpositive_seed_yields_negatives (-5) 3). lia.
Defined.

Lemma stuck_from (seed : Z) (n : nat) :
  Z.rem (seed * 16807) 2147483647 = 0%Z ->
  state_after (Chip.rand (num:=R)) seed (S n) = 0%Z
  /\ nth_value (Chip.rand (num:=R)) seed n = (- 1 / 2147483646)%R.
Proof.
  intros Hfirst.
  assert (H0 : forall m,
             state_after (Chip.rand (num:=R)) seed (S m) = 0%Z).
  { induction m as [|m IH]; rewrite state_after_S, Prng.rand_state.
    - exact Hfirst.
    - rewrite IH. reflexivity. }
  split; [apply H0|].
  unfold nth_value. rewrite rand_value_R.
  destruct n as [|n].
  - change (state_after Chip.rand seed 0) with seed.
    rewrite Hfirst. lra.
  - rewrite H0. cbn [Z.mul Z.rem Z.quotrem snd]. lra.
Qed.

(** X3. Seeded with 0 or with the modulus 2147483647, the generator is
    stuck: after every call the state is 0 and every value returned is
    [-1 / 2147483646]. *)
Theorem zero_seed_is_stuck (n : nat) :
  (state_after (Chip.rand (num:=R)) (Chip.seededRandom 0) (S n) = 0%Z
   /\ nth_value (Chip.rand (num:=R)) (Chip.seededRandom 0) n
      = (- 1 / 2147483646)%R)
  /\ (state_after (Chip.rand (num:=R)) (Chip.seededRandom 2147483647) (S n)
      = 0%Z
      /\ nth_value (Chip.rand (num:=R)) (Chip.seededRandom 2147483647) n
         = (- 1 / 2147483646)%R).
Proof.
  split; apply stuck_from; reflexivity.
Qed.

End PrngEdge.

(* ------------------------------------------------------------------ *)
(** ** What the panel selection returns, and when it cannot *)

Module PanelSelection.
Import JS Three Run.

Section Generic.
Context {num : Type} `{Num num}.

Lemma ordered_pairs_snoc {A} (Rel : A -> A -> Prop) (l : list A) (v : A) :
  ForallOrdPairs Rel l -> Forall (fun a => Rel a v) l ->
  ForallOrdPairs Rel (l ++ [v]).
Proof.
  induction 1 as [|a l Ha Hl IH]; intros Hv; cbn.
  - constructor; constructor.
  - inversion Hv; subst. constructor.
    + apply Forall_app. split; [exact Ha|].
      constructor; [assumption|constructor].
    + apply IH. assumption.
Qed.

Lemma Set_add_distinct (set : list num) (v : num) :
  distinct_values set -> distinct_values (Set_add set v).
Proof.
  intros Hd. unfold Set_add.
  destruct (existsb (same_value_zero v) set) eqn:E; [exact Hd|].
  apply ordered_pairs_snoc; [exact Hd|].
  apply Forall_forall. intros a Ha.
  destruct (same_value_zero v a) eqn:Ev; [|reflexivity].
  assert (existsb (same_value_zero v) set = true)
    by (apply existsb_exists; eauto).
  congruence.
Qed.

Lemma Set_add_length (set : list num) (v : num) :
  (List.length set <= List.length (Set_add set v) <= S (List.length set))%nat.
Proof.
  unfold Set_add. destruct (existsb _ set); [lia|].
  rewrite length_app. cbn. lia.
Qed.

(** The loop adds one face at a time and stops as soon as it holds
    [wanted] of them. *)
Lemma select_faces_result (fuel wanted : nat) (totalFaces : num) :
  forall faceIndices s result,
    distinct_values faceIndices ->
    (List.length faceIndices <= wanted)%nat ->
    fst (SphereA.select_faces fuel wanted totalFaces faceIndices s)
    = Some result ->
    List.length result = wanted /\ distinct_values result.
Proof.
  induction fuel as [|fuel IH]; intros l s result Hd Hlen;
    cbn [SphereA.select_faces];
    destruct (List.length l <? wanted)%nat eqn:E.
  - discriminate.
  - apply Nat.ltb_ge in E. cbn. intros [= <-]. split; [lia|exact Hd].
  - unfold bind. cbv zeta. apply IH.
    + apply Set_add_distinct. exact Hd.
    + apply Nat.ltb_lt in E.
      pose proof (Set_add_length l
        (Math_floor (mul (fst (SphereA.rand s)) totalFaces))). lia.
  - apply Nat.ltb_ge in E. cbn. intros [= <-]. split; [lia|exact Hd].
Qed.
End Generic.



(** *** Fewer faces than panels *)

Lemma Reqb_false (a b : R) : Reqb a b = false -> a <> b.
Proof. unfold Reqb. destruct (Req_dec_T a b); [discriminate|auto]. Qed.

Lemma distinct_integers_NoDup (k : Z) (l : list R) :
  distinct_values l -> Forall (integer_below k) l ->
  NoDup (map Int_part l).
Proof.
  induction 1 as [|a l Ha Hl IH]; intros Hall; cbn; [constructor|].
  inversion Hall as [|? ? (za & -> & Hza) Hrest]; subst.
  constructor; [|apply IH; exact Hrest].
  intros Hin. apply in_map_iff in Hin. destruct Hin as (b & Hb & Hbl).
  rewrite Forall_forall in Ha, Hrest.
  destruct (Hrest b Hbl) as (zb & -> & Hzb).
  specialize (Ha _ Hbl). cbn in Ha. apply Reqb_false in Ha.
  apply Ha. f_equal.
  rewrite <- (Int_part_spec (IZR zb) zb) in Hb by lra.
  rewrite <- (Int_part_spec (IZR za) za) in Hb by lra.
  exact Hb.
Qed.

(** Distinct integers of [0, k) are at most [k]. *)
Lemma distinct_integers_bound (k : Z) (l : list R) :
  distinct_values l -> Forall (integer_below k) l ->
  (Z.of_nat (List.length l) <= Z.max k 0)%Z.
Proof.
  intros Hd Hall.
  pose proof (distinct_integers_NoDup Hd Hall) as Hnd.
  assert (Hincl : incl (map Int_part l)
                       (map Z.of_nat (seq 0 (Z.to_nat k)))).
  { intros z Hz. apply in_map_iff in Hz. destruct Hz as (v & <- & Hv).
    rewrite Forall_forall in Hall. destruct (Hall v Hv) as (z & -> & Hz).
    rewrite <- (Int_part_spec (IZR z) z) by lra.
    apply in_map_iff. exists (Z.to_nat z).
    split; [lia|]. apply in_seq. lia. }
  apply NoDup_incl_length in Hincl; [|exact Hnd].
  rewrite !length_map, length_seq in Hincl. lia.
Qed.

Lemma draw_integer_below (faces : Z) (r : R) :
  (0 <= faces)%Z -> (0 <= r < 1)%R ->
  integer_below (Z.max faces 1) (Math_floor (mul r (IZR faces))).
Proof.
  intros Hf Hr. cbn [Math_floor mul Num_R].
  exists (Int_part (r * IZR faces)). split; [reflexivity|].
  destruct (Z.eq_dec faces 0) as [->|Hne].
  - rewrite Rmult_0_r.
    rewrite <- (Int_part_spec 0%R 0%Z) by lra. lia.
  - destruct (@SphereGeometry.floor_index r faces Hr ltac:(lia))
      as [Hlo Hhi].
    apply le_IZR in Hlo. rewrite <- minus_IZR in Hhi. apply le_IZR in Hhi.
    lia.
Qed.

Lemma select_faces_starves (faces : Z) (wanted : nat) :
  (0 <= faces)%Z -> (Z.max faces 1 < Z.of_nat wanted)%Z ->
  forall fuel faceIndices,
    distinct_values faceIndices ->
    Forall (integer_below (Z.max faces 1)) faceIndices ->
    preserves (SphereA.select_faces fuel wanted (IZR faces) faceIndices)
              (fun result => result = None).
Proof.
  intros Hf Hw. induction fuel as [|fuel IH]; intros l Hd Hall;
    cbn [SphereA.select_faces];
    pose proof (distinct_integers_bound Hd Hall) as Hlen;
    replace (List.length l <? wanted)%nat with true
      by (symmetry; apply Nat.ltb_lt; lia).
  - apply Prng.preserves_ret. reflexivity.
  - eapply Prng.preserves_bind; [apply Prng.preserves_rand|].
    intros r Hr. apply IH.
    + apply Set_add_distinct. exact Hd.
    + apply SphereGeometry.Set_add_Forall; [exact Hall|].
      apply draw_integer_below; assumption.
Qed.

(** X5. A buffer with fewer faces than panels starves the selection: with
    [3 * faces] vertices, however many draws are allowed the loop has not
    returned, in the first sphere scene when [faces < 3] and in the second
    when [faces < 4]; the source loops for ever. *)
Theorem panel_selection_starves
    (pos : BufferAttribute R) (faces : Z) (fuel : nat) :
  (0 <= faces)%Z -> count pos = (3 * faces)%Z ->
  ((faces < 3)%Z -> SphereA.panel_faces fuel pos = None)
  /\ ((faces < 4)%Z -> SphereB.panel_faces fuel pos = None).
Proof.
  intros Hf Hc.
  unfold SphereA.panel_faces, SphereB.panel_faces, run. cbv zeta.
  rewrite (@SphereGeometry.total_faces pos faces Hc).
  split; intros Hlt.
  - apply (@select_faces_starves faces 3 ltac:(lia) ltac:(lia) fuel []);
      [constructor|constructor|apply SphereGeometry.seed_in_range;
                               reflexivity].
  - rewrite SphereGeometry.SphereB_select_faces_eq.
    apply (@select_faces_starves faces 4 ltac:(lia) ltac:(lia) fuel []);
      [constructor|constructor|apply SphereGeometry.seed_in_range;
                               reflexivity].
Qed.

Lemma panel_selection_starves_witness :
  (0 <= 2)%Z /\ count two_faces = (3 * 2)%Z
  /\ SphereA.panel_faces 1000 two_faces = None
  /\ SphereB.panel_faces 1000 two_faces = None.
Proof.
  split; [lia|]. split; [reflexivity|].
  pose proof (@panel_selection_starves two_faces 2 1000
                ltac:(lia) eq_refl) as [Ha Hb].
  split; [apply Ha; lia | apply Hb; lia].
Defined.

End PanelSelection.

(* ------------------------------------------------------------------ *)
(** ** The chip: what its generators lay out *)

Module ChipLayout.
Import JS Three Run Loops.

Ltac js_real :=
  unfold lit in *;
  cbn [Qnum Qden of_Z add sub mul div neg gtb ltb Num_R Trig_R
       Math_sin Math_cos Math_PI fst snd to_float32 map
       Three.x Three.y Three.z position rotation scale opacity material
       intensity hue] in *.

Ltac draw :=
  eapply Prng.preserves_bind; [apply Prng.preserves_rand|];
  let r := fresh "r" in let Hr := fresh "Hr" in intros r Hr.

(** *** Sizes *)

Section Generic.
Context {num : Type} `{Num num}.

Lemma SphereA_edge_color_three (i s : Z) :
  List.length (fst (SphereA.edge_color (num:=num) i s)) = 3%nat.
Proof.
  unfold SphereA.edge_color, bind, ret. cbv zeta. cbn [fst].
  rewrite length_map.
  repeat match goal with
         | |- context [if ?b then _ else _] => destruct b
         end; reflexivity.
Qed.

Lemma SphereB_edge_color_three (i s : Z) :
  List.length (fst (SphereB.edge_color (num:=num) i s)) = 3%nat.
Proof.
  unfold SphereB.edge_color, bind, ret. cbv zeta. cbn [fst].
  rewrite length_map.
  repeat match goal with
         | |- context [if ?b then _ else _] => destruct b
         end; reflexivity.
Qed.

Lemma blocks_length {A} (body : Z -> Gen (list A)) (m : nat) (count seed : Z) :
  (forall i s, List.length (fst (body i s)) = m) ->
  Z.of_nat (List.length
              (concat (run (for_loop (iterations count) 0 body) seed)))
  = (Z.of_nat m * Z.max count 0)%Z.
Proof.
  intros Hbody. unfold run, iterations.
  destruct (for_loop_elements body (Z.to_nat count) 0%Z seed) as [Hlen Hall].
  rewrite (@concat_length_blocks _ m).
  - rewrite Hlen. lia.
  - apply Forall_nth_error. intros k b Hk.
    destruct (Hall k b Hk) as [s' ->]. apply Hbody.
Qed.
End Generic.


(** *** Circuit traces *)

Lemma round_near (v : R) :
  (v - / 2 < IZR (Int_part (v + / 2)) <= v + / 2)%R.
Proof. destruct (base_Int_part (v + / 2)). lra. Qed.

Lemma round_end (r : R) :
  (0 <= r < 1)%R ->
  within 0.4 (IZR (Int_part ((r - 5 / 10) * (8 / 10) * 10 + / 2)) / 10).
Proof.
  intros Hr. pose proof (round_near ((r - 5 / 10) * (8 / 10) * 10)) as Hn.
  set (z := Int_part _) in *.
  assert (H1 : (-5 < z)%Z) by (apply lt_IZR; lra).
  assert (H2 : (z < 5)%Z) by (apply lt_IZR; lra).
  assert (H3 : (-4 <= IZR z)%R) by (apply IZR_le; lia).
  assert (H4 : (IZR z <= 4)%R) by (apply IZR_le; lia).
  unfold within. lra.
Qed.

Lemma round_offset (r variance : R) :
  (0 <= r < 1)%R -> (0 <= variance)%R ->
  within (1.4 * variance + 0.05)
    (IZR (Int_part ((r - 5 / 10) * (28 / 10) * variance * 10 + / 2)) / 10).
Proof.
  intros Hr Hv.
  pose proof (round_near ((r - 5 / 10) * (28 / 10) * variance * 10)) as Hn.
  set (z := IZR (Int_part _)) in *.
  unfold within. nra.
Qed.

Lemma circuit_trace_within (variance : R) (i : Z) :
  (0 <= variance)%R ->
  preserves (Chip.circuit_trace variance i) (trace_within variance).
Proof.
  intros Hv. unfold Chip.circuit_trace. cbv zeta.
  draw. draw. draw. draw.
  apply Prng.preserves_ret.
  eexists _, _, _. split; [reflexivity|].
  js_real. cbn [Math_round Math_floor strict_eqb Num_R].
  pose proof (round_end Hr1) as He1. pose proof (round_end Hr2) as He2.
  pose proof (round_offset Hr0 Hv) as Ho.
  split; [exact He1|]. split; [exact He2|]. split; [exact He2|].
  repeat match goal with
         | |- context [if ?b then _ else _] => destruct b
         end; cbn [fst snd].
  - left. split; [left; lra | exact Ho].
  - right. split; [left; lra | exact Ho].
  - left. split; [right; lra | exact Ho].
  - right. split; [right; lra | exact Ho].
Qed.

(** X7. With a seed in range and a variance that is not negative, every
    trace of [createCircuitGeo] ends in the square of half-width 0.4
    around the centre of the chip (the centre included) and starts on one
    of the four border lines at distance 1.3, at most
    [1.4 * variance + 0.05] from the middle of that line. *)
Theorem circuit_traces_within
    (count : Z) (variance : R) (seed : Z) (k : nat) :
  in_range seed -> (0 <= variance)%R -> (k < Z.to_nat count)%nat ->
  trace_within variance
    (trace_at (Chip.createCircuitGeo count variance seed) k).
Proof.
  intros Hs Hv Hk.
  unfold Chip.createCircuitGeo, run, iterations, Chip.seededRandom.
  destruct (@Prng.preserves_for_loop _ (Chip.circuit_trace variance)
              (fun _ => trace_within variance)
              (fun i => circuit_trace_within i Hv)
              (Z.to_nat count) 0%Z seed Hs) as [[Hlen Hall] _].
  set (blocks := fst (for_loop (Z.to_nat count) 0
                        (Chip.circuit_trace variance) seed)) in *.
  destruct (@nth_error_defined _ blocks k) as [b Hb]; [lia|].
  unfold trace_at.
  rewrite (@concat_block _ 4 blocks
             (ChipGeometry.circuit_traces_blocks _ _ _ _) k b Hb).
  exact (Hall k b Hb).
Qed.

Lemma circuit_traces_within_witness :
  in_range 42 /\ (0 <= 0.3)%R /\ (7 < Z.to_nat 80)%nat
  /\ trace_within 0.3 (trace_at (Chip.createCircuitGeo 80 0.3%R 42) 7).
Proof.
  assert (Hs : in_range 42) by (unfold in_range, modulus; lia).
  assert (Hv : (0 <= 0.3)%R) by lra.
  assert (Hk : (7 < Z.to_nat 80)%nat) by (cbn; lia).
  split; [exact Hs|]. split; [exact Hv|]. split; [exact Hk|].
  exact (@circuit_traces_within 80 0.3%R 42 7 Hs Hv Hk).
Defined.

(** *** Greebles *)

Lemma side_within (b : bool) (r : R) :
  (0 <= r < 1)%R ->
  within 1.4 ((if b then IZR 1 else IZR (-1)) * (10 / 10 + r * (4 / 10))).
Proof. intros Hr. unfold within. destruct b; lra. Qed.

Lemma spread_within (r : R) :
  (0 <= r < 1)%R -> within 1.4 ((r - 5 / 10) * (28 / 10)).
Proof. intros Hr. unfold within. lra. Qed.

Lemma greeble_on_substrate (i : Z) :
  preserves (Chip.greeble (num:=R) i) on_substrate.
Proof.
  unfold Chip.greeble. cbv zeta.
  eapply Prng.preserves_bind with
    (P := fun xy => within 1.4 (fst xy) /\ within 1.4 (snd xy)).
  - destruct (i <? 100)%Z; draw; draw; draw;
      apply Prng.preserves_ret; js_real; split;
        auto using side_within, spread_within.
  - intros [px py] [Hx Hy]. draw.
    apply Prng.preserves_ret. unfold on_substrate. js_real.
    split; [exact Hx|]. split; [exact Hy|].
    split; [lra|]. split; [f_equal; lra|].
    split; [reflexivity|]. split; [reflexivity|].
    destruct (Rgtb r (5 / 10)); [left; reflexivity | right; reflexivity].
Qed.

(** X8. Every greeble lies on the substrate: within 1.4 of the centre on
    both axes (the substrate reaches 1.6), at height 0.09, scaled to
    0.04 x 0.08 x 0.02, and either unrotated or turned by a quarter turn
    about z. *)
Theorem greebles_on_substrate :
  exists mesh,
    Chip.MicroGreebles_useLayoutEffect (Some (Chip.new_InstancedMesh (num:=R)))
    = Some mesh
    /\ Forall (fun w => on_substrate (snd w)) (instanceMatrix mesh).
Proof.
  unfold Chip.MicroGreebles_useLayoutEffect, run, Chip.seededRandom.
  pose proof (@ChipGeometry.greeble_loop_writes R _ in_range
                (fun _ => on_substrate)
                (fun i s Hs => greeble_on_substrate i Hs)
                (iterations Chip.greeble_count) 0 0
                Chip.new_InstancedMesh 1337%Z
                ChipGeometry.seed_1337_in_range) as Hw.
  cbv zeta in Hw.
  destruct (fst (Chip.greeble_loop (iterations Chip.greeble_count) 0 0
                   Chip.new_InstancedMesh 1337%Z)) as [idx mesh'].
  cbn [fst snd] in Hw.
  destruct Hw as (_ & _ & added & Hadd & _ & Hall).
  eexists. split; [reflexivity|].
  cbn [set_count instanceMatrix]. cbn in Hadd. rewrite Hadd.
  apply Forall_nth_error. intros k w Hk. apply (Hall k w Hk).
Qed.

Section Rerun.
Context {num : Type} `{Num num}.

(** The loop appends its writes to the mesh and touches nothing else. *)
Lemma greeble_loop_appends (n : nat) :
  forall i idx mesh s,
    fst (Chip.greeble_loop n i idx mesh s)
    = ((idx + Z.of_nat n)%Z,
       mkInstancedMesh (capacity mesh)
         (instanceMatrix mesh ++ greeble_writes n i idx s)
         (instance_count mesh)).
Proof.
  induction n as [|n IH]; intros i idx mesh s.
  - cbn. rewrite Z.add_0_r, app_nil_r. destruct mesh; reflexivity.
  - cbn [Chip.greeble_loop greeble_writes]. unfold bind. cbv zeta.
    rewrite IH. cbn [setMatrixAt capacity instanceMatrix instance_count].
    rewrite <- app_assoc. cbn [app].
    f_equal. lia.
Qed.

Lemma greeble_writes_length (n : nat) :
  forall i idx s, List.length (greeble_writes (num:=num) n i idx s) = n.
Proof.
  induction n as [|n IH]; intros i idx s; cbn; [reflexivity|].
  rewrite IH. reflexivity.
Qed.
End Rerun.

(** X9. Running the layout effect again on the mesh it has filled writes
    the same 200 matrices at the same indices once more and leaves
    [count] at 200: the effect may be re-run without changing what is
    drawn. *)
Theorem layout_effect_rerun
    (num : Type) (N : Num num) (mesh : InstancedMesh num) :
  exists writes,
    List.length writes = 200%nat
    /\ Chip.MicroGreebles_useLayoutEffect (Some mesh)
      = Some (mkInstancedMesh (capacity mesh)
                (instanceMatrix mesh ++ writes) 200)
    /\ Chip.MicroGreebles_useLayoutEffect
        (Chip.MicroGreebles_useLayoutEffect (Some mesh))
      = Some (mkInstancedMesh (capacity mesh)
                (instanceMatrix mesh ++ writes ++ writes) 200).
Proof.
  exists (greeble_writes (iterations Chip.greeble_count) 0 0 1337).
  split; [apply greeble_writes_length|].
  assert (Honce : forall m,
             Chip.MicroGreebles_useLayoutEffect (Some m)
             = Some (mkInstancedMesh (capacity m)
                       (instanceMatrix m
                        ++ greeble_writes (iterations Chip.greeble_count)
                             0 0 1337) 200)).
  { intros m. unfold Chip.MicroGreebles_useLayoutEffect, run,
      Chip.seededRandom.
    rewrite greeble_loop_appends. reflexivity. }
  split; [apply Honce|].
  rewrite Honce, Honce. cbn [capacity instanceMatrix].
  rewrite <- app_assoc. reflexivity.
Qed.

(** *** Particles *)

Lemma vertices_of_blocks {A} (P : Vector3 A -> Prop)
    (blocks : list (list A)) :
  Forall (fun b => exists a1 a2 a3,
              b = [a1; a2; a3] /\ P (mkVector3 a1 a2 a3)) blocks ->
  List.length (vertices_of (concat blocks)) = List.length blocks
  /\ Forall P (vertices_of (concat blocks)).
Proof.
  induction 1 as [|b l (a1 & a2 & a3 & -> & Hp) _ [IHl IHp]]; cbn.
  - split; constructor.
  - split; [congruence|]. constructor; assumption.
Qed.

Lemma Chip_particle_in_box (i : Z) :
  preserves (Chip.particle (num:=R) i)
    (fun b => exists a1 a2 a3,
         b = [a1; a2; a3] /\ in_box 15 10 7.5 (mkVector3 a1 a2 a3)).
Proof.
  unfold Chip.particle. draw. draw. draw. apply Prng.preserves_ret.
  eexists _, _, _. split; [reflexivity|].
  unfold in_box, within. js_real. repeat split; lra.
Qed.

Lemma SphereA_particle_in_box (i : Z) :
  preserves (SphereA.particle (num:=R) i)
    (fun b => exists a1 a2 a3,
         b = [a1; a2; a3] /\ in_box 12.5 8 10 (mkVector3 a1 a2 a3)).
Proof.
  unfold SphereA.particle. draw. draw. draw. apply Prng.preserves_ret.
  eexists _, _, _. split; [reflexivity|].
  unfold in_box, within. js_real. repeat split; lra.
Qed.

Lemma SphereB_particle_in_box (i : Z) :
  preserves (SphereB.particle (num:=R) i)
    (fun b => exists a1 a2 a3,
         b = [a1; a2; a3] /\ in_box 15 10 7.5 (mkVector3 a1 a2 a3)).
Proof.
  unfold SphereB.particle. draw. draw. draw. apply Prng.preserves_ret.
  eexists _, _, _. split; [reflexivity|].
  unfold in_box, within. js_real. repeat split; lra.
Qed.

Lemma particles_in_box (body : Z -> Gen (list R)) (P : Vector3 R -> Prop)
    (n : nat) (seed : Z) :
  (forall i, preserves (body i)
       (fun b => exists a1 a2 a3,
            b = [a1; a2; a3] /\ P (mkVector3 a1 a2 a3))) ->
  in_range seed ->
  let points := vertices_of (concat (run (for_loop n 0 body) seed)) in
  List.length points = n /\ Forall P points.
Proof.
  intros Hb Hs points.
  destruct (@Prng.preserves_for_loop _ body _ Hb n 0%Z seed Hs)
    as [[Hlen Hall] _].
  destruct (@vertices_of_blocks R P (run (for_loop n 0 body) seed))
    as [H1 H2].
  { apply Forall_nth_error. exact Hall. }
  split; [|exact H2]. subst points. rewrite H1. exact Hlen.
Qed.

(** X10. The particle fields are full and boxed: the chip and the second
    sphere place 400 points with [|x| <= 15], [|y| <= 10], [|z| <= 7.5],
    the first sphere 500 points with [|x| <= 12.5], [|y| <= 8],
    [|z| <= 10]. *)
Theorem particles_fill_their_boxes :
  (let points := vertices_of (Chip.ParticleField_positions (num:=R)) in
   List.length points = 400%nat /\ Forall (in_box 15 10 7.5) points)
  /\ (let points := vertices_of (SphereA.ParticleField_positions (num:=R)) in
      List.length points = 500%nat /\ Forall (in_box 12.5 8 10) points)
  /\ (let points := vertices_of (SphereB.ParticleField_positions (num:=R)) in
      List.length points = 400%nat /\ Forall (in_box 15 10 7.5) points).
Proof.
  split; [|split].
  - apply (@particles_in_box Chip.particle _ 400 999%Z Chip_particle_in_box).
    apply SphereGeometry.seed_in_range. reflexivity.
  - apply (@particles_in_box SphereA.particle _ 500 999%Z
             SphereA_particle_in_box).
    apply SphereGeometry.seed_in_range. reflexivity.
  - apply (@particles_in_box SphereB.particle _ 400 999%Z
             SphereB_particle_in_box).
    apply SphereGeometry.seed_in_range. reflexivity.
Qed.

(** *** Pins *)

Lemma pins_at_vertices (i : Z) (rest : list R) :
  (0 <= i <= 99)%Z ->
  let pins := Chip.pins_at 100 (lit 3.22) (lit 0.012) (lit 0.12) i in
  List.length (vertices_of (pins ++ rest))
  = (24 + List.length (vertices_of rest))%nat
  /\ (Forall pin_vertex (vertices_of rest) ->
      Forall pin_vertex (vertices_of (pins ++ rest))).
Proof.
  intros Hi. cbv zeta. unfold Chip.pins_at, Chip.addPin. cbv zeta.
  cbn [app vertices_of List.length]. split; [reflexivity|].
  intros Hrest.
  assert (H0 : (0 <= IZR i)%R) by (apply IZR_le; lia).
  assert (H1 : (IZR i <= 99)%R) by (apply IZR_le; lia).
  js_real.
  change (IZR (100 - 1)) with 99%R.
  set (offset := ((IZR i / 99 - 5 / 10) * (322 / 100) * (99 / 100))%R).
  assert (Ho : (-1.5939 <= offset <= 1.5939)%R).
  { subst offset. split; nra. }
  unfold pin_vertex, within, beside.
  repeat (apply Forall_cons;
          [cbn [x y z]; split; [lra|];
           first [ left; split; [lra|]; first [left; lra | right; lra]
                 | right; split; [lra|]; first [left; lra | right; lra] ]
          |]).
  exact Hrest.
Qed.

(** X11. The pins frame the chip: [pinsGeo] holds 2400 vertices (800
    triangles, 100 pins on each side), all in the plane [z = 0], each in
    the frame between the half-widths 1.55 and 1.79 and within 1.61 of
    the middle of its side. *)
Theorem pins_frame_the_chip :
  let vertices := vertices_of (Chip.pinsGeo_vertices (num:=R)) in
  List.length vertices = 2400%nat /\ Forall pin_vertex vertices.
Proof.
  cbv zeta. unfold Chip.pinsGeo_vertices. cbv zeta.
  assert (H : forall l,
             Forall (fun i => (i <= 99)%nat) l ->
             let array :=
               flat_map (fun i => Chip.pins_at 100 (lit 3.22) (lit 0.012)
                                    (lit 0.12) (Z.of_nat i)) l in
             List.length (vertices_of array) = (24 * List.length l)%nat
             /\ Forall pin_vertex (vertices_of array)).
  { induction 1 as [|i l Hi _ [IHlen IHall]]; cbv zeta.
    - split; [reflexivity|constructor].
    - cbn [flat_map].
      destruct (@pins_at_vertices (Z.of_nat i)
                  (flat_map (fun i => Chip.pins_at 100 (lit 3.22) (lit 0.012)
                                        (lit 0.12) (Z.of_nat i)) l)
                  ltac:(lia)) as [Hlen Hall].
      split; [rewrite Hlen, IHlen; cbn [List.length]; lia | auto]. }
  destruct (H (seq 0 (iterations 100))) as [Hlen Hall].
  - apply Forall_forall. intros i Hi. apply in_seq in Hi.
    unfold iterations in Hi. lia.
  - split; [rewrite Hlen, length_seq; reflexivity | exact Hall].
Qed.

End ChipLayout.

(* ------------------------------------------------------------------ *)
(** ** The energy beams *)

Module Beams.
Import JS Three Run Loops.

Lemma length_R (v : Vector3 R) :
  Three.length v = sqrt (x v * x v + y v * y v + z v * z v).
Proof. reflexivity. Qed.

Lemma length_pos (v : Vector3 R) : nonzero v -> (0 < Three.length v)%R.
Proof.
  intros Hv. rewrite length_R. apply sqrt_lt_R0.
  destruct Hv as [Hv|[Hv|Hv]]; nra.
Qed.

Lemma or_else_pos (a b : R) : (0 < a)%R -> or_else a b = a.
Proof.
  intros Ha. unfold or_else. cbn [strict_eqb of_Z Num_R]. unfold Reqb.
  destruct (Req_dec_T a 0); [lra|].
  destruct (Req_dec_T a a); [reflexivity|congruence].
Qed.

(** The direction of a beam is a unit vector. *)
Lemma normalize_unit (v : Vector3 R) :
  nonzero v -> Three.length (normalize v) = 1%R.
Proof.
  intros Hv. pose proof (length_pos Hv) as Hl.
  unfold normalize, divideScalar, multiplyScalar.
  rewrite (or_else_pos _ Hl). rewrite length_R.
  cbn [x y z mul div of_Z Num_R].
  set (n := Three.length v) in *.
  replace (x v * (1 / n) * (x v * (1 / n)) + y v * (1 / n) * (y v * (1 / n))
           + z v * (1 / n) * (z v * (1 / n)))%R
    with ((x v * x v + y v * y v + z v * z v) / (n * n))%R by (field; lra).
  assert (Hn : (n * n = x v * x v + y v * y v + z v * z v)%R).
  { subst n. rewrite length_R. apply sqrt_sqrt. nra. }
  rewrite <- Hn. replace (n * n / (n * n))%R with 1%R by (field; lra).
  apply sqrt_1.
Qed.

Lemma SphereA_beam_radial (pos : BufferAttribute R) (i : Z) :
  preserves (SphereA.beam pos i)
    (fun b => radial_beam pos 3 7 b
              /\ (0.47 <= hue (material (snd b)) < 0.53)%R
              /\ (0.35 <= opacity (material (snd b)) < 0.65)%R).
Proof.
  unfold SphereA.beam. cbv zeta.
  ChipLayout.draw. ChipLayout.draw. ChipLayout.draw. ChipLayout.draw.
  apply Prng.preserves_ret.
  unfold radial_beam. cbn [fst snd line_start line_end material hue opacity].
  split; [|ChipLayout.js_real; split; lra].
  exists (lit 3.0 + r0 * lit 4.0)%js.
  split; [ChipLayout.js_real; lra|].
  split; [ChipLayout.js_real; repeat f_equal; lra|].
  split; [reflexivity | apply normalize_unit].
Qed.

Lemma SphereB_beam_radial (pos : BufferAttribute R) (i : Z) :
  preserves (SphereB.beam pos i)
    (fun b => radial_beam pos 4 9 b
              /\ (0.5 <= hue (material (snd b)) < 0.6)%R
              /\ (0.1 <= opacity (material (snd b)) < 0.5)%R).
Proof.
  unfold SphereB.beam. cbv zeta.
  ChipLayout.draw. ChipLayout.draw. ChipLayout.draw. ChipLayout.draw.
  apply Prng.preserves_ret.
  unfold radial_beam. cbn [fst snd line_start line_end material hue opacity].
  split; [|ChipLayout.js_real; split; lra].
  exists (lit 4.0 + r0 * lit 5.0)%js.
  split; [ChipLayout.js_real; lra|].
  split; [ChipLayout.js_real; repeat f_equal; lra|].
  split; [reflexivity | apply normalize_unit].
Qed.

Lemma beam_runs_all (body : Z -> Gen (R * Line R)) (P : R * Line R -> Prop)
    (n : nat) :
  (forall i, preserves (body i) P) ->
  let runs := run (for_loop n 0 body) 200%Z in
  List.length runs = n /\ Forall P runs.
Proof.
  intros Hb runs.
  destruct (@Prng.preserves_for_loop _ body (fun _ => P) Hb n 0%Z 200%Z)
    as [[Hlen Hall] _].
  { apply SphereGeometry.seed_in_range. reflexivity. }
  split; [exact Hlen|]. apply Forall_nth_error. exact Hall.
Qed.

(** X12. Whatever the buffer holds, the first sphere builds 10 beams and
    the second 15, each from [0.95 v] to [v] plus a step along the
    direction of [v], for the vertex [v] it read; the step is between 3
    and 7 long (4 and 9 in the second scene), and the direction is a unit
    vector unless [v] is the origin. The hue of the material lies in
    [0.47, 0.53) and its opacity in [0.35, 0.65) ([0.5, 0.6) and
    [0.1, 0.5) in the second scene). *)
Theorem beams_are_radial (pos : BufferAttribute R) :
  (List.length (SphereA.beam_runs pos) = 10%nat
   /\ Forall (fun b => radial_beam pos 3 7 b
                       /\ (0.47 <= hue (material (snd b)) < 0.53)%R
                       /\ (0.35 <= opacity (material (snd b)) < 0.65)%R)
             (SphereA.beam_runs pos))
  /\ (List.length (SphereB.beam_runs pos) = 15%nat
      /\ Forall (fun b => radial_beam pos 4 9 b
                          /\ (0.5 <= hue (material (snd b)) < 0.6)%R
                          /\ (0.1 <= opacity (material (snd b)) < 0.5)%R)
                (SphereB.beam_runs pos)).
Proof.
  split.
  - apply (@beam_runs_all (SphereA.beam pos)). apply SphereA_beam_radial.
  - apply (@beam_runs_all (SphereB.beam pos)). apply SphereB_beam_radial.
Qed.

End Beams.

(* ------------------------------------------------------------------ *)
(** ** The frame callbacks: what they touch and how they compose *)

Module Callbacks.
Import JS Three Run Loops.

Section Generic.
Context {num : Type} `{Num num} `{Trig num}.
Variable Matrix4_lookAt :
  Vector3 num -> Vector3 num -> Vector3 num -> Vector3 num.

Ltac callbacks_commute :=
  intros st; apply Animation.SphereA_SceneState_eq;
  unfold SphereA.ParticleField_useFrame, SphereA.AICoreSphere_useFrame,
    SphereA.SceneLights_useFrame, SphereA.CameraDrift_useFrame;
  cbn [SphereA.groupRef SphereA.panelLightRef SphereA.innerGlowRef
       SphereA.beams SphereA.keyRef SphereA.rimRef SphereA.camera
       SphereA.pointsRef];
  reflexivity.

Lemma SphereA_callbacks_commute (t u : num) :
  commute (SphereA.CameraDrift_useFrame Matrix4_lookAt t)
          (SphereA.SceneLights_useFrame u)
  /\ commute (SphereA.CameraDrift_useFrame Matrix4_lookAt t)
             (SphereA.AICoreSphere_useFrame u)
  /\ commute (SphereA.CameraDrift_useFrame Matrix4_lookAt t)
             (SphereA.ParticleField_useFrame u)
  /\ commute (SphereA.SceneLights_useFrame t)
             (SphereA.AICoreSphere_useFrame u)
  /\ commute (SphereA.SceneLights_useFrame t)
             (SphereA.ParticleField_useFrame u)
  /\ commute (SphereA.AICoreSphere_useFrame t)
             (SphereA.ParticleField_useFrame u).
Proof.
  repeat split; callbacks_commute.
Qed.

Lemma Chip_callbacks_commute (t u : num) :
  commute (Chip.SceneLights_useFrame t) (Chip.NeuralChip_useFrame u)
  /\ commute (Chip.SceneLights_useFrame t) (Chip.ParticleField_useFrame u)
  /\ commute (Chip.NeuralChip_useFrame t) (Chip.ParticleField_useFrame u).
Proof.
  repeat split; intros [g l p m]; reflexivity.
Qed.

Lemma beams_forEach_keeps (t : num) (lines : list (Line num)) :
  forall i,
    map beam_shape (SphereA.beams_forEach t i lines) = map beam_shape lines.
Proof.
  induction lines as [|l rest IH]; intros i; [reflexivity|].
  cbn [SphereA.beams_forEach map]. rewrite IH. reflexivity.
Qed.
End Generic.

(** X13. The frame callbacks of a scene commute, also when run at
    different times: each writes fields no other reads or writes, so the
    state after a frame does not depend on the order in which the
    callbacks are called. *)
Theorem callbacks_commute
    (num : Type) (N : Num num) (T : Trig num)
    (Matrix4_lookAt : Vector3 num -> Vector3 num -> Vector3 num -> Vector3 num)
    (t u : num) :
  (commute (SphereA.CameraDrift_useFrame Matrix4_lookAt t)
           (SphereA.SceneLights_useFrame u)
   /\ commute (SphereA.CameraDrift_useFrame Matrix4_lookAt t)
              (SphereA.AICoreSphere_useFrame u)
   /\ commute (SphereA.CameraDrift_useFrame Matrix4_lookAt t)
              (SphereA.ParticleField_useFrame u)
   /\ commute (SphereA.SceneLights_useFrame t)
              (SphereA.AICoreSphere_useFrame u)
   /\ commute (SphereA.SceneLights_useFrame t)
              (SphereA.ParticleField_useFrame u)
   /\ commute (SphereA.AICoreSphere_useFrame t)
              (SphereA.ParticleField_useFrame u))
  /\ (commute (Chip.SceneLights_useFrame t) (Chip.NeuralChip_useFrame u)
      /\ commute (Chip.SceneLights_useFrame t) (Chip.ParticleField_useFrame u)
      /\ commute (Chip.NeuralChip_useFrame t) (Chip.ParticleField_useFrame u)).
Proof.
  split.
  - apply SphereA_callbacks_commute.
  - apply Chip_callbacks_commute.
Qed.

(** X14. The first sphere's callback leaves the beams where they are: it
    keeps their number, their end points and their hue, and changes their
    opacity only; of the group it keeps the scale, the x and z of the
    position and the z of the rotation. *)
Theorem sphere_callback_keeps_shape
    (num : Type) (N : Num num) (T : Trig num)
    (t : num) (st : SphereA.SceneState) :
  let st' := SphereA.AICoreSphere_useFrame t st in
  map beam_shape (SphereA.beams st') = map beam_shape (SphereA.beams st)
  /\ List.length (SphereA.beams st') = List.length (SphereA.beams st)
  /\ option_map (fun g => (scale g, x (position g), z (position g),
                           z (rotation g))) (SphereA.groupRef st')
     = option_map (fun g => (scale g, x (position g), z (position g),
                             z (rotation g))) (SphereA.groupRef st)
  /\ option_map (@light_position _) (SphereA.panelLightRef st')
     = option_map (@light_position _) (SphereA.panelLightRef st)
  /\ option_map (@hue _) (SphereA.innerGlowRef st')
     = option_map (@hue _) (SphereA.innerGlowRef st).
Proof.
  cbv zeta. unfold SphereA.AICoreSphere_useFrame.
  cbn [SphereA.beams SphereA.groupRef SphereA.panelLightRef
       SphereA.innerGlowRef].
  pose proof (beams_forEach_keeps t (SphereA.beams st) 0) as Hk.
  split; [exact Hk|].
  split; [rewrite <- (length_map beam_shape), Hk; apply length_map|].
  destruct (SphereA.groupRef st), (SphereA.panelLightRef st),
    (SphereA.innerGlowRef st); repeat split; reflexivity.
Qed.

Ltac js_real := ChipLayout.js_real.

(** X15. With its ref attached, the chip's moving light is put on the
    circle of radius 12 about the y axis: after the callback
    [x^2 + z^2 = 144], while its height and its intensity are as
    before. *)
Theorem moving_light_circles
    (t : R) (l : Light R) (st : Chip.SceneState (num:=R)) :
  Chip.movLight st = Some l ->
  exists l',
    Chip.movLight (Chip.SceneLights_useFrame t st) = Some l'
    /\ (x (light_position l') * x (light_position l')
        + z (light_position l') * z (light_position l') = 144)%R
    /\ y (light_position l') = y (light_position l)
    /\ intensity l' = intensity l.
Proof.
  intros Hl. unfold Chip.SceneLights_useFrame. rewrite Hl.
  cbn [Chip.movLight]. eexists. split; [reflexivity|].
  unfold set_x, set_z. cbn [light_position intensity x y z].
  split; [|split; reflexivity].
  js_real. pose proof (sin2_cos2 (t * (2 / 10))) as Hsc.
  unfold Rsqr in Hsc. nra.
Qed.

Lemma moving_light_circles_witness :
  Chip.movLight Chip_sample = Some sample_light
  /\ exists l',
      Chip.movLight (Chip.SceneLights_useFrame 3%R Chip_sample) = Some l'
      /\ (x (light_position l') * x (light_position l')
          + z (light_position l') * z (light_position l') = 144)%R
      /\ y (light_position l') = y (light_position sample_light)
      /\ intensity l' = intensity sample_light.
Proof.
  split; [reflexivity|].
  exact (@moving_light_circles 3%R sample_light Chip_sample eq_refl).
Defined.

(** X16. The camera drifts in a small box and keeps looking at the same
    point: after [CameraDrift]'s callback its position has x in
    [0.05, 0.55], y in [-0.13, 0.23] and z in [5.85, 6.15], and its
    orientation is the one that faces (1.2, 0, 0) from there. *)
Theorem camera_drift_bounds
    (lookAt : Vector3 R -> Vector3 R -> Vector3 R -> Vector3 R)
    (t : R) (st : SphereA.SceneState (num:=R)) :
  let c := SphereA.camera (SphereA.CameraDrift_useFrame lookAt t st) in
  (0.05 <= x (SphereA.camera_position c) <= 0.55)%R
  /\ (-0.13 <= y (SphereA.camera_position c) <= 0.23)%R
  /\ (5.85 <= z (SphereA.camera_position c) <= 6.15)%R
  /\ SphereA.camera_rotation c
     = lookAt (SphereA.camera_position c) (mkVector3 1.2 0 0)%R
              (SphereA.camera_up (SphereA.camera st)).
Proof.
  cbv zeta. unfold SphereA.CameraDrift_useFrame.
  cbn [SphereA.camera SphereA.camera_position SphereA.camera_rotation x y z].
  js_real.
  pose proof (SIN_bound (t * (12 / 100))).
  pose proof (SIN_bound (t * (8 / 100))).
  pose proof (SIN_bound (t * (1 / 10))).
  repeat split; lra.
Qed.

(** X17. The first sphere's callback keeps the sphere near its place and
    its panel light on: the group bobs by at most 0.12 and tilts by at
    most 0.08 about x while turning at 0.06 per second about y, and the
    panel light's intensity stays in [2.5, 5.5]. *)
Theorem sphere_callback_bounds (t : R) (st : SphereA.SceneState (num:=R)) :
  let st' := SphereA.AICoreSphere_useFrame t st in
  when_attached
    (fun g => within 0.12 (y (position g))
              /\ within 0.08 (x (rotation g))
              /\ y (rotation g) = (0.06 * t)%R)
    (SphereA.groupRef st')
  /\ when_attached (fun l => (2.5 <= intensity l <= 5.5)%R)
                   (SphereA.panelLightRef st').
Proof.
  cbv zeta. unfold SphereA.AICoreSphere_useFrame.
  cbn [SphereA.groupRef SphereA.panelLightRef].
  split.
  - destruct (SphereA.groupRef st) as [g|]; [|exact I].
    cbn [when_attached]. unfold set_x, set_y, within. js_real.
    pose proof (SIN_bound (t * (35 / 100))).
    pose proof (SIN_bound (t * (3 / 100))).
    repeat split; lra.
  - destruct (SphereA.panelLightRef st) as [l|]; [|exact I].
    cbn [when_attached]. unfold SphereA.set_intensity. js_real.
    pose proof (SIN_bound (t * (12 / 10))). lra.
Qed.

(** *** The second sphere and the ambient stream *)

Lemma SphereB_beams_consume (t : R) (lines : list (Line R)) :
  forall i w,
    let r := SphereB.beams_forEach t i lines w in
    List.length (fst r) = List.length lines
    /\ stream (snd r) = stream w
    /\ cursor (snd r) = (cursor w + List.length lines)%nat.
Proof.
  induction lines as [|l rest IH]; intros i w; cbn [SphereB.beams_forEach].
  - cbn. repeat split; lia.
  - unfold Math_random.
    specialize (IH (i + 1)%Z (mkWorld (stream w) (S (cursor w)))).
    cbv zeta in IH.
    destruct (SphereB.beams_forEach t (i + 1) rest
                (mkWorld (stream w) (S (cursor w)))) as [rest' w2].
    cbn [fst snd stream cursor List.length] in *.
    destruct IH as (H1 & H2 & H3).
    repeat split; [congruence|assumption|lia].
Qed.

(** X18. A frame of the second sphere consumes one ambient random number
    for the panel light, if it is attached, and one for each beam, in that
    order, and nothing else of the stream; it keeps the number of beams,
    and for a stream with values in [0, 1) it leaves the panel light's
    intensity in [13, 19). *)
Theorem SphereB_frame_consumes
    (t : R) (st : SphereB.SceneState (num:=R)) (w : World R) :
  (forall k, (0 <= stream w k < 1)%R) ->
  let r := SphereB.frame t st w in
  stream (snd r) = stream w
  /\ cursor (snd r)
     = (cursor w + attached (SphereB.panelLightRef st)
        + List.length (SphereB.beams st))%nat
  /\ List.length (SphereB.beams (fst r)) = List.length (SphereB.beams st)
  /\ when_attached (fun l => (13 <= intensity l < 19)%R)
                   (SphereB.panelLightRef (fst r)).
Proof.
  intros Hw. cbv zeta. unfold SphereB.frame, SphereB.AICoreSphere_useFrame.
  destruct (SphereB.panelLightRef st) as [l|]; unfold Math_random.
  - pose proof (@SphereB_beams_consume t (SphereB.beams st) 0%Z
                  (mkWorld (stream w) (S (cursor w)))) as Hb.
    cbv zeta in Hb.
    destruct (SphereB.beams_forEach t 0 (SphereB.beams st)
                (mkWorld (stream w) (S (cursor w)))) as [beams' w2].
    cbn [fst snd stream cursor attached] in *.
    destruct Hb as (H1 & H2 & H3).
    unfold SphereB.ParticleField_useFrame.
    cbn [SphereB.beams SphereB.panelLightRef when_attached].
    split; [exact H2|]. split; [lia|]. split; [exact H1|].
    unfold SphereB.set_intensity. js_real.
    pose proof (SIN_bound (t * (100 / 10))). pose proof (Hw (cursor w)). lra.
  - pose proof (@SphereB_beams_consume t (SphereB.beams st) 0%Z w) as Hb.
    cbv zeta in Hb.
    destruct (SphereB.beams_forEach t 0 (SphereB.beams st) w) as [beams' w2].
    cbn [fst snd stream cursor attached] in *.
    destruct Hb as (H1 & H2 & H3).
    unfold SphereB.ParticleField_useFrame.
    cbn [SphereB.beams SphereB.panelLightRef when_attached].
    split; [exact H2|]. split; [lia|]. split; [exact H1|]. exact I.
Qed.

Lemma SphereB_frame_consumes_witness :
  (forall k, (0 <= stream idle_world k < 1)%R)
  /\ cursor (snd (SphereB.frame 1%R SphereB_sample idle_world))
     = (cursor idle_world + attached (SphereB.panelLightRef SphereB_sample)
        + List.length (SphereB.beams SphereB_sample))%nat.
Proof.
  assert (Hw : forall k, (0 <= stream idle_world k < 1)%R)
    by (intros k; cbn; lra).
  split; [exact Hw|].
  exact (proj1 (proj2 (@SphereB_frame_consumes 1%R SphereB_sample
                         idle_world Hw))).
Defined.

(** X19. On every render the second sphere gives each panel an emissive
    intensity in [8, 12) drawn from the ambient stream, one number for
    each panel, for a stream with values in [0, 1). *)
Theorem panels_emissive_range
    (panels : list (SphereB.Panel (num:=R))) (w : World R) :
  (forall k, (0 <= stream w k < 1)%R) ->
  let r := SphereB.panels_emissive panels w in
  List.length (fst r) = List.length panels
  /\ Forall (fun e => (8 <= e < 12)%R) (fst r)
  /\ stream (snd r) = stream w
  /\ cursor (snd r) = (cursor w + List.length panels)%nat.
Proof.
  revert w.
  induction panels as [|p rest IH]; intros w Hw; cbn [SphereB.panels_emissive].
  - cbn. repeat split; try lia. constructor.
  - unfold Math_random.
    specialize (IH (mkWorld (stream w) (S (cursor w))) Hw). cbv zeta in IH.
    destruct (SphereB.panels_emissive rest
                (mkWorld (stream w) (S (cursor w)))) as [es w2].
    cbn [fst snd stream cursor List.length] in *.
    destruct IH as (H1 & H2 & H3 & H4).
    repeat split; [congruence| |assumption|lia].
    constructor; [|exact H2]. js_real. pose proof (Hw (cursor w)). lra.
Qed.

Lemma panels_emissive_range_witness :
  (forall k, (0 <= stream half_world k < 1)%R)
  /\ Forall (fun e => (8 <= e < 12)%R)
            (fst (SphereB.panels_emissive
                    [SphereB.mkPanel [] (mkVector3 0 0 0)%R] half_world)).
Proof.
  assert (Hw : forall k, (0 <= stream half_world k < 1)%R)
    by (intros k; cbn; lra).
  split; [exact Hw|].
  exact (proj1 (proj2 (@panels_emissive_range
                         [SphereB.mkPanel [] (mkVector3 0 0 0)%R]
                         half_world Hw))).
Defined.

(** X20. A frame of the second sphere is not a function of the time alone:
    with at least one beam (and no panel light before it), two worlds
    whose next ambient random numbers differ leave different states at
    the same time. *)
Theorem SphereB_frame_follows_stream
    (t : R) (st : SphereB.SceneState (num:=R)) (line : Line R)
    (rest : list (Line R)) (w1 w2 : World R) :
  SphereB.panelLightRef st = None ->
  SphereB.beams st = line :: rest ->
  stream w1 (cursor w1) <> stream w2 (cursor w2) ->
  fst (SphereB.frame t st w1) <> fst (SphereB.frame t st w2).
Proof.
  intros Hl Hb Hne Heq.
  apply (f_equal (fun s => map (fun l => opacity (material l))
                               (SphereB.beams s))) in Heq.
  unfold SphereB.frame, SphereB.AICoreSphere_useFrame in Heq.
  rewrite Hl, Hb in Heq. cbn [SphereB.beams_forEach] in Heq.
  unfold Math_random in Heq.
  destruct (SphereB.beams_forEach t (0 + 1) rest
              (mkWorld (stream w1) (S (cursor w1)))).
  destruct (SphereB.beams_forEach t (0 + 1) rest
              (mkWorld (stream w2) (S (cursor w2)))).
  cbn [fst SphereB.ParticleField_useFrame SphereB.beams map material opacity
       SphereB.set_opacity] in Heq.
  injection Heq as Hop _. apply Hne. js_real. lra.
Qed.

Lemma SphereB_frame_follows_stream_witness :
  SphereB.panelLightRef SphereB_unlit = None
  /\ SphereB.beams SphereB_unlit = sample_line :: [sample_line]
  /\ stream idle_world (cursor idle_world)
     <> stream half_world (cursor half_world)
  /\ fst (SphereB.frame 1%R SphereB_unlit idle_world)
     <> fst (SphereB.frame 1%R SphereB_unlit half_world).
Proof.
  assert (Hne : stream idle_world (cursor idle_world)
                <> stream half_world (cursor half_world))
    by (cbn; lra).
  split; [reflexivity|]. split; [reflexivity|]. split; [exact Hne|].
  exact (@SphereB_frame_follows_stream 1%R SphereB_unlit sample_line
           [sample_line] idle_world half_world eq_refl eq_refl Hne).
Defined.

End Callbacks.

(* ------------------------------------------------------------------ *)
(** ** Two executions *)

Module Determinism.
Import JS Three Run.

Section Generic.
Context {num : Type} `{Num num} `{Trig num}.
Variable Matrix4_lookAt :
  Vector3 num -> Vector3 num -> Vector3 num -> Vector3 num.

(** *** Greebles: the layout effect may run again *)

Lemma matrix_at_app (l w : list (Z * Object3D num)) (i : Z) :
  matrix_at (l ++ w) i
  = match matrix_at w i with
    | Some m => Some m
    | None => matrix_at l i
    end.
Proof.
  induction l as [|[j m] l IH]; cbn [app matrix_at].
  - destruct (matrix_at w i); reflexivity.
  - rewrite IH. destruct (matrix_at w i); reflexivity.
Qed.

(** The loop writes at every index from [idx] on, one per iteration. *)
Lemma matrix_at_writes (n : nat) :
  forall i idx s k,
    (idx <= k < idx + Z.of_nat n)%Z ->
    matrix_at (greeble_writes (num:=num) n i idx s) k <> None.
Proof.
  induction n as [|n IH]; intros i idx s k Hk; [lia|].
  cbn [greeble_writes matrix_at].
  destruct (Z.eq_dec idx k) as [->|Hne].
  - rewrite Z.eqb_refl. destruct (matrix_at _ k); discriminate.
  - specialize (IH (i + 1)%Z (idx + 1)%Z (snd (Chip.greeble i s)) k
                  ltac:(lia)).
    destruct (matrix_at _ k); [discriminate|contradiction].
Qed.

Lemma effect_on (m : InstancedMesh num) :
  Chip.MicroGreebles_useLayoutEffect (Some m)
  = Some (mkInstancedMesh (capacity m)
            (instanceMatrix m ++ effect_writes) 200).
Proof.
  unfold Chip.MicroGreebles_useLayoutEffect, run, Chip.seededRandom.
  rewrite ChipLayout.greeble_loop_appends. reflexivity.
Qed.

(** Whatever was written before, a filled mesh draws what the last run
    of the effect wrote. *)
Lemma filled_transforms (mesh : option (InstancedMesh num)) :
  filled mesh ->
  instance_transforms mesh
  = map (fun i => matrix_at effect_writes (Z.of_nat i)) (seq 0 200).
Proof.
  intros (m & earlier & -> & Hc & Hw). unfold instance_transforms.
  rewrite Hc, Hw. apply map_ext_in. intros i Hi. apply in_seq in Hi.
  rewrite matrix_at_app.
  pose proof (@matrix_at_writes (iterations Chip.greeble_count) 0 0 1337
                (Z.of_nat i)) as Hcover.
  fold effect_writes in Hcover.
  destruct (matrix_at effect_writes (Z.of_nat i)); [reflexivity|].
  exfalso. apply Hcover; [|reflexivity].
  unfold iterations, Chip.greeble_count. lia.
Qed.

Lemma Chip_step_filled (e : Event num) (s : ChipRun num) :
  filled (chip_mesh s) -> filled (chip_mesh (Chip_step e s)).
Proof.
  intros Hf. destruct e; cbn [Chip_step chip_mesh]; try exact Hf.
  destruct Hf as (m & earlier & -> & Hc & Hw).
  rewrite effect_on. eexists _, (instanceMatrix m).
  split; [reflexivity|]. split; reflexivity.
Qed.

Lemma Chip_execute_filled (refs : Chip.SceneState) (e : Execution num) :
  filled (chip_mesh (Chip_execute refs e)).
Proof.
  unfold Chip_execute.
  set (s0 := mkChipRun _ refs).
  assert (Hstart : filled (chip_mesh s0)).
  { subst s0. cbn [chip_mesh]. rewrite effect_on.
    eexists _, []. repeat split. }
  clearbody s0. revert s0 Hstart.
  induction (exec_events e) as [|ev evs IH]; intros s0 Hstart; [exact Hstart|].
  cbn [fold_left]. apply IH. apply Chip_step_filled. exact Hstart.
Qed.

(** *** Beams: the frames mutate their materials *)

Lemma SphereA_frame_beams (t : num) (st : SphereA.SceneState) :
  SphereA.beams (SphereA.frame Matrix4_lookAt t st)
  = SphereA.beams_forEach t 0 (SphereA.beams st).
Proof. reflexivity. Qed.

Lemma SphereA_execute_beams (pos : BufferAttribute num)
    (refs : SphereA.SceneState) (e : Execution num) :
  map beam_shape (SphereA.beams (SphereA_execute Matrix4_lookAt pos refs e))
  = map beam_shape (SphereA.beamObjects pos).
Proof.
  unfold SphereA_execute.
  change (SphereA.beamObjects pos)
    with (SphereA.beams (SphereA_mounted pos refs)).
  generalize (SphereA_mounted pos refs).
  induction (exec_events e) as [|ev evs IH]; intros st; [reflexivity|].
  cbn [fold_left]. rewrite IH.
  destruct ev; cbn [SphereA_step]; try reflexivity.
  rewrite SphereA_frame_beams. apply Callbacks.beams_forEach_keeps.
Qed.

Lemma SphereB_beams_keep (t : num) (lines : list (Line num)) :
  forall i w,
    map beam_shape (fst (SphereB.beams_forEach t i lines w))
    = map beam_shape lines.
Proof.
  induction lines as [|l rest IH]; intros i w; [reflexivity|].
  cbn [SphereB.beams_forEach].
  destruct (Math_random w) as [r w1].
  specialize (IH (i + 1)%Z w1).
  destruct (SphereB.beams_forEach t (i + 1) rest w1) as [rest' w2].
  cbn [fst map] in *. rewrite IH. reflexivity.
Qed.

Lemma SphereB_frame_beams (t : num) (st : SphereB.SceneState)
    (w : World num) :
  map beam_shape (SphereB.beams (fst (SphereB.frame t st w)))
  = map beam_shape (SphereB.beams st).
Proof.
  unfold SphereB.frame, SphereB.AICoreSphere_useFrame.
  destruct (SphereB.panelLightRef st) as [l|].
  - destruct (Math_random w) as [r w1].
    pose proof (SphereB_beams_keep t (SphereB.beams st) 0 w1) as Hk.
    destruct (SphereB.beams_forEach t 0 (SphereB.beams st) w1).
    cbn [fst SphereB.ParticleField_useFrame SphereB.beams] in *. exact Hk.
  - pose proof (SphereB_beams_keep t (SphereB.beams st) 0 w) as Hk.
    destruct (SphereB.beams_forEach t 0 (SphereB.beams st) w).
    cbn [fst SphereB.ParticleField_useFrame SphereB.beams] in *. exact Hk.
Qed.

Lemma SphereB_step_beams (panels : list SphereB.Panel) (ev : Event num)
    (s : SphereBRun * World num) :
  map beam_shape
      (SphereB.beams (sphereB_refs (fst (SphereB_step panels ev s))))
  = map beam_shape (SphereB.beams (sphereB_refs (fst s))).
Proof.
  destruct ev; cbn [SphereB_step].
  - pose proof (SphereB_frame_beams t (sphereB_refs (fst s)) (snd s)) as Hk.
    destruct (SphereB.frame t (sphereB_refs (fst s)) (snd s)).
    cbn [fst sphereB_refs] in *. exact Hk.
  - destruct (SphereB.panels_emissive panels (snd s)). reflexivity.
  - reflexivity.
Qed.

Lemma SphereB_execute_beams (pos : BufferAttribute num)
    (refs : SphereB.SceneState) (e : Execution num) :
  map beam_shape
      (SphereB.beams (sphereB_refs (fst (SphereB_execute pos refs e))))
  = map beam_shape (SphereB.beamObjects pos).
Proof.
  unfold SphereB_execute. cbv zeta.
  set (panels := SphereB_panels (exec_fuel e) pos).
  assert (Hstart :
            map beam_shape
              (SphereB.beams
                 (sphereB_refs
                    (fst (SphereB_step panels Render
                            (mkSphereBRun (SphereB_mounted pos refs) [],
                             exec_world e)))))
            = map beam_shape (SphereB.beamObjects pos)).
  { rewrite SphereB_step_beams. reflexivity. }
  revert Hstart.
  generalize (SphereB_step panels Render
                (mkSphereBRun (SphereB_mounted pos refs) [], exec_world e)).
  induction (exec_events e) as [|ev evs IH]; intros s Hs; [exact Hs|].
  cbn [fold_left]. apply IH. rewrite SphereB_step_beams. exact Hs.
Qed.

(** *** Panel faces: the bound on the draws *)

Lemma faces_agree_fuel (wanted : nat) (totalFaces : num) (seed : Z)
    (f1 f2 : nat) :
  faces_agree (fst (SphereA.select_faces f1 wanted totalFaces [] seed))
              (fst (SphereA.select_faces f2 wanted totalFaces [] seed)).
Proof.
  unfold faces_agree.
  destruct (fst (SphereA.select_faces f1 wanted totalFaces [] seed))
    as [fa|] eqn:Ea; [|exact I].
  destruct (fst (SphereA.select_faces f2 wanted totalFaces [] seed))
    as [fb|] eqn:Eb; [|exact I].
  destruct (Nat.le_ge_cases f1 f2) as [Hle|Hle].
  - apply (SphereGeometry.select_faces_more_fuel f1 (f2 - f1)) in Ea.
    replace (f1 + (f2 - f1))%nat with f2 in Ea by lia. congruence.
  - apply (SphereGeometry.select_faces_more_fuel f2 (f1 - f2)) in Eb.
    replace (f2 + (f1 - f2))%nat with f1 in Eb by lia. congruence.
Qed.
End Generic.


End Determinism.
